(** * Spike-and-slab RBM policy (mlpack, [spike_slab_rbm_policy_impl.hpp])

    Shallow embedding of [SpikeSlabRBMPolicy] over the real numbers.

    Memory model.  Every Armadillo object is a flat column-major buffer
    [nat -> R]; an "aliased view" ([arma::mat(ptr + off, ...)] with
    [copy_aux_mem = false]) is a record of an offset and a shape into the
    buffer it was carved out of.  Element [(r, c, s)] of a view of shape
    [rows x cols x slices] lives at [off + r + rows * c + rows * cols * s].

    Effects.  Assertions and Armadillo's refusal to invert a singular
    diagonal matrix are modelled as failure ([None]) of an option monad;
    random draws come from an explicit oracle stream threaded through the
    calls (explicit state passing). *)

From Stdlib Require Import Reals Lra Lia Arith List.
Import ListNotations.

Open Scope R_scope.
Open Scope bool_scope.

(** ** Buffers, views and loops *)

Definition buf := nat -> R.

(** [b(k) = x]: one store into a buffer. *)
Definition upd (b : buf) (k : nat) (x : R) : buf :=
  fun j => if Nat.eqb j k then x else b j.

(** Assignment of a whole contiguous block [b[off .. off+len)] (an Armadillo
    sub-view assignment), the block's element [t] getting [f t]. *)
Definition write_block (b : buf) (off len : nat) (f : nat -> R) : buf :=
  fun j => if Nat.leb off j && Nat.ltb j (off + len)%nat then f (j - off)%nat else b j.

(** A non-owning view into a buffer. *)
Record view := mkView { v_off : nat; v_rows : nat; v_cols : nat; v_slices : nat }.

Definition n_elem (v : view) : nat := (v_rows v * v_cols v * v_slices v)%nat.

(** An owning Armadillo matrix: its shape and its memory. *)
Record mat := mkMat { n_rows : nat; n_cols : nat; mem : buf }.

(** [m.set_size(r, c)]: Armadillo keeps the memory when the number of
    elements does not change and otherwise hands out new, uninitialised
    memory, whose contents are [fresh]. *)
Definition set_size (m : mat) (r c : nat) (fresh : buf) : mat :=
  if Nat.eqb (n_rows m * n_cols m)%nat (r * c)%nat then mkMat r c (mem m)
  else mkMat r c fresh.

(** [sum_{j < n} f j], accumulated left to right. *)
Fixpoint sum_upto (n : nat) (f : nat -> R) : R :=
  match n with
  | O => 0
  | S m => sum_upto m f + f m
  end.

(** [for (size_t i = 0; i < n; i++) body(i)] on a state [A]. *)
Fixpoint for_loop {A : Type} (n : nat) (body : nat -> A -> A) (a : A) : A :=
  match n with
  | O => a
  | S m => body m (for_loop m body a)
  end.

(** The same loop when the body may fail. *)
Fixpoint for_loopM {A : Type} (n : nat) (body : nat -> A -> option A) (a : A)
  : option A :=
  match n with
  | O => Some a
  | S m =>
      match for_loopM m body a with
      | Some a' => body m a'
      | None => None
      end
  end.

Notation "x <- m ;; k" :=
  (match m with Some x => k | None => None end)
  (at level 61, m at next level, right associativity).

Fixpoint all_upto (n : nat) (p : nat -> bool) : bool :=
  match n with
  | O => true
  | S m => all_upto m p && p m
  end.

(** [arma::diagmat(d).i()] for a length-[n] vector [d]: the diagonal of the
    inverse, or a runtime error ("inv(): matrix seems singular") when some
    diagonal entry is zero. *)
Definition diag_inv (n : nat) (d : nat -> R) : option (nat -> R) :=
  if all_upto n (fun k => if Req_EM_T (d k) 0 then false else true)
  then Some (fun k => / d k)
  else None.

(** ** Library functions the policy calls *)

(** Modelled from the spec: [SoftplusFunction::Fn], the softplus
    [log(1 + exp x)]. *)
Definition softplus (x : R) : R := ln (1 + exp x).

(** Modelled from the spec: [LogisticFunction::Fn], the logistic sigmoid. *)
Definition logistic (x : R) : R := / (1 + exp (- x)).

(** Modelled from the spec: [math::RandBernoulli(p)], a Bernoulli draw of
    success probability [p], from a uniform draw [u] in [[0, 1)]. *)
Definition rand_bernoulli (p u : R) : R :=
  if Rlt_dec u p then 1 else 0.

(** Modelled from the spec: [math::RandNormal(mean, variance)], a Gaussian
    draw of the given mean and variance, from a standard normal draw [z]. *)
Definition rand_normal (mean variance z : R) : R :=
  mean + sqrt variance * z.

(** The random number generator: an oracle stream of draws and the position
    of the next one. *)
Record rng := mkRng { draws : nat -> R; pos : nat }.

Definition next (g : rng) : R * rng :=
  (draws g (pos g), mkRng (draws g) (S (pos g))).

(** ** The policy object *)

Record policy := mkPolicy {
  visibleSize : nat;
  hiddenSize : nat;
  poolSize : nat;
  slabPenalty : mat;          (* poolSize x hiddenSize *)
  radius : R;
  parameter : buf;
  weight : view;              (* into [parameter] *)
  spikeBias : view;           (* into [parameter] *)
  visiblePenalty : view;      (* into [parameter] *)
  spikeMean : buf;            (* scratch, hiddenSize x 1 *)
  spikeSamples : buf;         (* scratch, hiddenSize x 1 *)
  slabMean : buf              (* scratch, poolSize x hiddenSize *)
}.

Section Accessors.
Variable st : policy.

(** [weight(r, k, i)] = [weight.slice(i)(r, k)]. *)
Definition W (r k i : nat) : R :=
  parameter st (v_off (weight st) + r + v_rows (weight st) * k
                + v_rows (weight st) * v_cols (weight st) * i)%nat.

(** [spikeBias(i)]. *)
Definition b (i : nat) : R := parameter st (v_off (spikeBias st) + i)%nat.

(** [visiblePenalty(i)]. *)
Definition vp (i : nat) : R := parameter st (v_off (visiblePenalty st) + i)%nat.

(** [slabPenalty(k, i)]. *)
Definition alpha (k i : nat) : R :=
  mem (slabPenalty st) (k + n_rows (slabPenalty st) * i)%nat.

End Accessors.

(** Constructor: [parameter.set_size(V*H*P + V + H)] (uninitialised contents
    [init]), the two shape assertions on [slabPenalty], and the scratch
    buffers.  The views are left as they are until [Reset]. *)
Definition construct (V H P : nat) (slab : mat) (rad : R) (init : buf)
    (w0 sb0 vp0 : view) (sm0 ss0 slm0 : buf) : option policy :=
  if Nat.eqb (n_rows slab) P && Nat.eqb (n_cols slab) H then
    Some (mkPolicy V H P slab rad init w0 sb0 vp0 sm0 ss0 slm0)
  else None.

(** [Reset]: the three views, carved out of [parameter] one after the other. *)
Definition reset_views (V H P : nat) : view * view * view :=
  let w := mkView 0 V P H in
  let sb := mkView (n_elem w) H 1 1 in
  let vpen := mkView (n_elem w + n_elem sb)%nat V 1 1 in
  (w, sb, vpen).

Definition Reset (st : policy) : policy :=
  match reset_views (visibleSize st) (hiddenSize st) (poolSize st) with
  | (w, sb, vpen) =>
      mkPolicy (visibleSize st) (hiddenSize st) (poolSize st) (slabPenalty st)
        (radius st) (parameter st) w sb vpen
        (spikeMean st) (spikeSamples st) (slabMean st)
  end.

(** [FreeEnergy(input)], [input] a [visibleSize x 1] column. *)
Definition FreeEnergy (st : policy) (input : buf) : R :=
  let V := visibleSize st in
  let H := hiddenSize st in
  let P := poolSize st in
  (* 0.5 * input.t() * diagmat(visiblePenalty) * input *)
  let fe0 := 0.5 * sum_upto V (fun r => input r * vp st r * input r) in
  let fe1 := for_loop H (fun i fe =>
               for_loop P (fun k fe' =>
                 fe' - 0.5 * ln (2 * PI / alpha st k i)) fe) fe0 in
  for_loop H (fun i fe =>
    let proj k := sum_upto V (fun r => input r * W st r k i) in
    let sum := for_loop P (fun k s =>
                 s + proj k * proj k / (2 * alpha st k i)) 0 in
    fe - softplus (b st i + sum)) fe1.

(** [Evaluate(predictors, i)]. *)
Definition Evaluate (st : policy) (predictors : mat) (i : nat) : R := 0.

(** Replace the three scratch buffers of the object. *)
Definition set_scratch (st : policy) (sm ss slm : buf) : policy :=
  mkPolicy (visibleSize st) (hiddenSize st) (poolSize st) (slabPenalty st)
    (radius st) (parameter st) (weight st) (spikeBias st) (visiblePenalty st)
    sm ss slm.

(** ** Inference and sampling *)

(** [SpikeMean(visible, spikeMean)]: writes the [hiddenSize] spike means into
    the target buffer [tgt] at offset [toff].  The column
    [slabPenalty.col(i)] has [poolSize] entries (constructor assertion). *)
Definition SpikeMean (st : policy) (visible : buf) (tgt : buf) (toff : nat)
  : option buf :=
  let V := visibleSize st in
  let H := hiddenSize st in
  let P := poolSize st in
  for_loopM H (fun i bf =>
    dinv <- diag_inv P (fun k => alpha st k i);;
    (* visible.t() * weight.slice(i) : 1 x P *)
    let a k := sum_upto V (fun r => visible r * W st r k i) in
    (* ... * diagmat(slabPenalty.col(i)).i() : 1 x P *)
    let c k := a k * dinv k in
    (* ... * weight.slice(i).t() : 1 x V *)
    let d r := sum_upto P (fun k => c k * W st r k i) in
    (* ... * visible : 1 x 1 *)
    let q := sum_upto V (fun r => d r * visible r) in
    Some (upd bf (toff + i)%nat (logistic (0.5 * q + b st i)))) tgt.

(** [SampleSpike(spikeMean, spike)]: one Bernoulli draw per hidden unit, the
    means read from [mean] at [moff], the draws stored into [tgt] at [toff]. *)
Definition SampleSpike (st : policy) (mean : buf) (moff : nat) (tgt : buf)
    (toff : nat) (gen : rng) : buf * rng :=
  for_loop (hiddenSize st) (fun i '(bf, g) =>
    let (u, g') := next g in
    (upd bf (toff + i)%nat (rand_bernoulli (mean (moff + i)%nat) u), g'))
    (tgt, gen).

(** [SlabMean(visible, spike, slabMean)]: column [i] of the
    [poolSize x hiddenSize] target (at offset [toff] of [tgt]) becomes
    [spike(i) * diagmat(slabPenalty.col(i)).i() * weight.slice(i).t() * visible]. *)
Definition SlabMean (st : policy) (visible : buf) (spike : buf) (soff : nat)
    (tgt : buf) (toff : nat) : option buf :=
  let V := visibleSize st in
  let H := hiddenSize st in
  let P := poolSize st in
  for_loopM H (fun i bf =>
    dinv <- diag_inv P (fun k => alpha st k i);;
    let col k := sum_upto V (fun r =>
                   spike (soff + i)%nat * dinv k * W st r k i * visible r) in
    Some (write_block bf (toff + P * i)%nat P col)) tgt.

(** [VisibleMean(input, output)]: [input] holds the [hiddenSize] spikes
    followed by the [poolSize x hiddenSize] slabs; [output.set_size(V, 1)],
    then [output += weight.slice(i) * slab.col(i) * spike(i)] for every [i],
    then [output = diagmat(visiblePenalty).i() * output]. *)
Definition VisibleMean (st : policy) (input : buf) (output : mat) (fresh : buf)
  : option mat :=
  let V := visibleSize st in
  let H := hiddenSize st in
  let P := poolSize st in
  let o := set_size output V 1 fresh in
  let acc := for_loop H (fun i bf =>
               write_block bf 0 V (fun r =>
                 bf r + sum_upto P (fun k => W st r k i * input (H + k + P * i)%nat)
                        * input i)) (mem o) in
  dinv <- diag_inv V (vp st);;
  Some (mkMat V 1 (write_block acc 0 V (fun r => dinv r * acc r))).

(** [HiddenMean(input, output)]: [output.set_size(H + P*H, 1)]; the spike view
    [output[0, H)] receives the spike means, a spike is sampled from it into
    the scratch buffer [spikeSamples], and the slab view [output[H, H + P*H)]
    receives the slab mean conditioned on that sample. *)
Definition HiddenMean (st : policy) (input : buf) (output : mat) (fresh : buf)
    (gen : rng) : option (policy * mat * rng) :=
  let H := hiddenSize st in
  let P := poolSize st in
  let o := set_size output (H + P * H)%nat 1 fresh in
  b1 <- SpikeMean st input (mem o) 0;;
  let (ss, gen1) := SampleSpike st b1 0 (spikeSamples st) 0 gen in
  b2 <- SlabMean st input ss 0 b1 H;;
  Some (set_scratch st (spikeMean st) ss (slabMean st),
        mkMat (H + P * H)%nat 1 b2, gen1).

(** [arma::norm(output)] of a length-[n] column: the Euclidean norm. *)
Definition norm2 (n : nat) (v : buf) : R := sqrt (sum_upto n (fun r => v r * v r)).

(** One trial of [SampleVisible]: for every visible unit,
    [assert(visiblePenalty[i] > 0)] and
    [output(i) = RandNormal(output(i), 1.0 / visiblePenalty[i])]. *)
Definition draw_visible (st : policy) (bf : buf) (gen : rng) : option (buf * rng) :=
  for_loopM (visibleSize st) (fun i '(o, g) =>
    if Rlt_dec 0 (vp st i) then
      let (z, g') := next g in
      Some (upd o i (rand_normal (o i) (1 / vp st i) z), g')
    else None) (bf, gen).

(** The trial loop [for (k = 0; k < k_left; k++) { draw; if (norm < radius) break; }]. *)
Fixpoint visible_trials (st : policy) (k_left : nat) (bf : buf) (gen : rng)
  : option (buf * rng) :=
  match k_left with
  | O => Some (bf, gen)
  | S k' =>
      match draw_visible st bf gen with
      | None => None
      | Some (bf', gen') =>
          if Rlt_dec (norm2 (visibleSize st) bf') (radius st) then Some (bf', gen')
          else visible_trials st k' bf' gen'
      end
  end.

Definition numMaxTrials : nat := 10.

(** [SampleVisible(input, output)]. *)
Definition SampleVisible (st : policy) (input : buf) (output : mat) (fresh : buf)
    (gen : rng) : option (mat * rng) :=
  m <- VisibleMean st input output fresh;;
  match visible_trials st numMaxTrials (mem m) gen with
  | Some (bf, gen') => Some (mkMat (n_rows m) (n_cols m) bf, gen')
  | None => None
  end.

(** ** Gradient engine *)

(** The gradient views of [PositivePhase] (lines 103-110). *)
Definition positive_views (V H P : nat) : view * view * view :=
  let weightGrad := mkView 0 V P H in
  let spikeBiasGrad := mkView (n_elem weightGrad) H 1 1 in
  let visiblePenaltyGrad :=
    mkView (n_elem weightGrad + n_elem spikeBiasGrad)%nat V 1 1 in
  (weightGrad, spikeBiasGrad, visiblePenaltyGrad).

(** [PositivePhase(input, gradient)]. *)
Definition PositivePhase (st : policy) (input : buf) (gradient : buf) (gen : rng)
  : option (policy * buf * rng) :=
  let V := visibleSize st in
  let H := hiddenSize st in
  let P := poolSize st in
  match positive_views V H P with
  | (weightGrad, spikeBiasGrad, visiblePenaltyGrad) =>
    sm <- SpikeMean st input (spikeMean st) 0;;
    let (ss, gen1) := SampleSpike st sm 0 (spikeSamples st) 0 gen in
    slm <- SlabMean st input ss 0 (slabMean st) 0;;
    (* weightGrad.slice(i) = input * slabMean.col(i).t() * spikeMean(i) *)
    let g1 := for_loop H (fun i g =>
                write_block g (v_off weightGrad
                               + v_rows weightGrad * v_cols weightGrad * i)%nat
                  (v_rows weightGrad * v_cols weightGrad)%nat
                  (fun t => input (t mod v_rows weightGrad)%nat
                            * slm (t / v_rows weightGrad + P * i)%nat * sm i))
                gradient in
    (* spikeBiasGrad(i) = spikeMean(i) *)
    let g2 := for_loop H (fun i g =>
                upd g (v_off spikeBiasGrad + i)%nat (sm i)) g1 in
    (* visiblePenaltyGrad(i) = -0.5 * input(i) * input(i) *)
    let g3 := for_loop V (fun i g =>
                upd g (v_off visiblePenaltyGrad + i)%nat
                  (-0.5 * input i * input i)) g2 in
    Some (set_scratch st sm ss slm, g3, gen1)
  end.

(** The gradient views of [NegativePhase] (lines 131-138). *)
Definition negative_views (V H P : nat) : view * view * view :=
  let weightGrad := mkView 0 V P H in
  let spikeBiasGrad := mkView (n_elem weightGrad) H 1 1 in
  let visiblePenaltyGrad :=
    mkView (n_elem weightGrad + n_elem spikeBiasGrad)%nat V 1 1 in
  (weightGrad, spikeBiasGrad, visiblePenaltyGrad).

(** [NegativePhase(negativeSamples, gradient)]. *)
Definition NegativePhase (st : policy) (negativeSamples : buf) (gradient : buf)
    (gen : rng) : option (policy * buf * rng) :=
  let V := visibleSize st in
  let H := hiddenSize st in
  let P := poolSize st in
  match negative_views V H P with
  | (weightGrad, spikeBiasGrad, visiblePenaltyGrad) =>
    sm <- SpikeMean st negativeSamples (spikeMean st) 0;;
    let (ss, gen1) := SampleSpike st sm 0 (spikeSamples st) 0 gen in
    slm <- SlabMean st negativeSamples ss 0 (slabMean st) 0;;
    (* weightGrad.slice(i) = negativeSamples * slabMean.col(i).t() * spikeMean(i) *)
    let g1 := for_loop H (fun i g =>
                write_block g (v_off weightGrad
                               + v_rows weightGrad * v_cols weightGrad * i)%nat
                  (v_rows weightGrad * v_cols weightGrad)%nat
                  (fun t => negativeSamples (t mod v_rows weightGrad)%nat
                            * slm (t / v_rows weightGrad + P * i)%nat * sm i))
                gradient in
    (* spikeBiasGrad(i) = spikeMean(i) *)
    let g2 := for_loop H (fun i g =>
                upd g (v_off spikeBiasGrad + i)%nat (sm i)) g1 in
    (* visiblePenaltyGrad(i) = -0.5 * negativeSamples(i) * negativeSamples(i) *)
    let g3 := for_loop V (fun i g =>
                upd g (v_off visiblePenaltyGrad + i)%nat
                  (-0.5 * negativeSamples i * negativeSamples i)) g2 in
    Some (set_scratch st sm ss slm, g3, gen1)
  end.

(** [SampleSlab(slabMean, slab)]: for every cell [(j, i)] of the
    [poolSize x hiddenSize] matrices, [assert(slabPenalty(j, i) > 0)] and
    [slab(j, i) = RandNormal(slabMean(j, i), 1.0 / slabPenalty(j, i))]; the
    means are read from [mean] at [moff], the draws stored into [tgt] at
    [toff]. *)
Definition SampleSlab (st : policy) (mean : buf) (moff : nat) (tgt : buf)
    (toff : nat) (gen : rng) : option (buf * rng) :=
  let H := hiddenSize st in
  let P := poolSize st in
  for_loopM H (fun i s =>
    for_loopM P (fun j '(bf, g) =>
      if Rlt_dec 0 (alpha st j i) then
        let (z, g') := next g in
        Some (upd bf (toff + j + P * i)%nat
                (rand_normal (mean (moff + j + P * i)%nat) (1 / alpha st j i) z), g')
      else None) s) (tgt, gen).

(** [SampleSpike(spike, spike)]: the same loop as [SampleSpike] when the means
    and the draws are one and the same view [bf[off, off + H)]; each
    iteration reads the location it then overwrites. *)
Definition SampleSpike_inplace (st : policy) (bf : buf) (off : nat) (gen : rng)
  : buf * rng :=
  for_loop (hiddenSize st) (fun i '(b0, g) =>
    let (u, g') := next g in
    (upd b0 (off + i)%nat (rand_bernoulli (b0 (off + i)%nat) u), g'))
    (bf, gen).

(** [SampleSlab(slab, slab)]: the same loop as [SampleSlab] on one view
    [bf[off, off + P*H)]. *)
Definition SampleSlab_inplace (st : policy) (bf : buf) (off : nat) (gen : rng)
  : option (buf * rng) :=
  let H := hiddenSize st in
  let P := poolSize st in
  for_loopM H (fun i s =>
    for_loopM P (fun j '(b0, g) =>
      if Rlt_dec 0 (alpha st j i) then
        let (z, g') := next g in
        Some (upd b0 (off + j + P * i)%nat
                (rand_normal (b0 (off + j + P * i)%nat) (1 / alpha st j i) z), g')
      else None) s) (bf, gen).


(** The model with its parameter buffer replaced (the external optimizer
    writes the buffer in place; the views keep pointing into it). *)
Definition set_parameter (st : policy) (p : buf) : policy :=
  mkPolicy (visibleSize st) (hiddenSize st) (poolSize st) (slabPenalty st)
    (radius st) p (weight st) (spikeBias st) (visiblePenalty st)
    (spikeMean st) (spikeSamples st) (slabMean st).

(** ** Auxiliary definitions for the statements *)

(** [n] trials of [SampleVisible] without the radius test: the state after
    [n] full-vector draws. *)
Fixpoint iter_draws (st : policy) (n : nat) (bf : buf) (gen : rng)
  : option (buf * rng) :=
  match n with
  | O => Some (bf, gen)
  | S n' =>
      match draw_visible st bf gen with
      | Some (bf1, gen1) => iter_draws st n' bf1 gen1
      | None => None
      end
  end.

(** The visible mean as the spec words it:
    [diag(visiblePrecision)^-1 * sum_i weight[i] * slab[:, i] * spike[i]]. *)
Definition visible_mean_spec (st : policy) (hidden : buf) (r : nat) : R :=
  / vp st r * sum_upto (hiddenSize st) (fun i =>
    sum_upto (poolSize st) (fun k =>
      W st r k i * hidden (hiddenSize st + k + poolSize st * i)%nat) * hidden i).

(** [SampleVisible] as the spec words it: every trial draws each visible unit
    around the visible mean [mean] computed at the start of the call. *)
Definition draw_visible_spec (st : policy) (mean : buf) (bf : buf) (gen : rng)
  : option (buf * rng) :=
  for_loopM (visibleSize st) (fun i '(o, g) =>
    if Rlt_dec 0 (vp st i) then
      let (z, g') := next g in
      Some (upd o i (rand_normal (mean i) (1 / vp st i) z), g')
    else None) (bf, gen).

Fixpoint visible_trials_spec (st : policy) (k_left : nat) (mean bf : buf)
    (gen : rng) : option (buf * rng) :=
  match k_left with
  | O => Some (bf, gen)
  | S k' =>
      match draw_visible_spec st mean bf gen with
      | None => None
      | Some (bf', gen') =>
          if Rlt_dec (norm2 (visibleSize st) bf') (radius st) then Some (bf', gen')
          else visible_trials_spec st k' mean bf' gen'
      end
  end.

Definition SampleVisible_spec (st : policy) (input : buf) (output : mat)
    (fresh : buf) (gen : rng) : option (mat * rng) :=
  m <- VisibleMean st input output fresh;;
  match visible_trials_spec st numMaxTrials (mem m) (mem m) gen with
  | Some (bf, gen') => Some (mkMat (n_rows m) (n_cols m) bf, gen')
  | None => None
  end.

(** A small model after [Reset]: one visible unit, one hidden unit, a pool
    of one, [slabPenalty = [[1]]], every parameter equal to [p]. *)
Definition tiny (p rad : R) : policy :=
  Reset (mkPolicy 1 1 1 (mkMat 1 1 (fun _ => 1)) rad (fun _ => p)
           (mkView 0 0 0 0) (mkView 0 0 0 0) (mkView 0 0 0 0)
           (fun _ => 0) (fun _ => 0) (fun _ => 0)).

(** A generator whose first draw is [z0] and all later ones [z1]. *)
Definition stream2 (z0 z1 : R) : rng :=
  mkRng (fun n => match n with O => z0 | _ => z1 end) 0.

(** * Properties *)

(** ** Buffer, loop and index lemmas *)

Lemma upd_same (bf : buf) k x : upd bf k x k = x.
Proof. unfold upd. now rewrite Nat.eqb_refl. Qed.

Lemma upd_other (bf : buf) k x j : j <> k -> upd bf k x j = bf j.
Proof. intros Hne. unfold upd. apply Nat.eqb_neq in Hne. now rewrite Hne. Qed.

Lemma write_block_in (bf : buf) off len f j :
  (off <= j < off + len)%nat -> write_block bf off len f j = f (j - off)%nat.
Proof.
  intros [H1 H2]. unfold write_block.
  apply Nat.leb_le in H1. apply Nat.ltb_lt in H2. now rewrite H1, H2.
Qed.

Lemma write_block_out (bf : buf) off len f j :
  (j < off \/ off + len <= j)%nat -> write_block bf off len f j = bf j.
Proof.
  intros Hj. unfold write_block.
  destruct (Nat.leb off j) eqn:E1; destruct (Nat.ltb j (off + len)) eqn:E2;
    simpl; auto.
  apply Nat.leb_le in E1. apply Nat.ltb_lt in E2. lia.
Qed.

Lemma sum_upto_zero n f : (forall r, (r < n)%nat -> f r = 0) -> sum_upto n f = 0.
Proof.
  induction n as [|n IH]; intros Hf; simpl; [reflexivity|].
  rewrite IH by (intros; apply Hf; lia). rewrite Hf by lia. ring.
Qed.

(** A location that no iteration touches keeps its value. *)
Lemma for_loopM_frame (body : nat -> buf -> option buf) n a a' j :
  (forall i x y, (i < n)%nat -> body i x = Some y -> y j = x j) ->
  for_loopM n body a = Some a' -> a' j = a j.
Proof.
  revert a'. induction n as [|n IH]; intros a' Hb Hrun; simpl in Hrun.
  - now injection Hrun as <-.
  - destruct (for_loopM n body a) as [a1|] eqn:E; [|discriminate].
    rewrite (Hb n a1 a') by (assumption || lia).
    apply IH; [|reflexivity].
    intros i x y Hi Hy. apply (Hb i x y); [lia | exact Hy].
Qed.

(** A location written by iteration [i] and untouched afterwards ends with
    what iteration [i] wrote. *)
Lemma for_loopM_last (body : nat -> buf -> option buf) (Q : R -> Prop) n a a' i j :
  (i < n)%nat ->
  (forall x y, body i x = Some y -> Q (y j)) ->
  (forall i' x y, (i < i' < n)%nat -> body i' x = Some y -> y j = x j) ->
  for_loopM n body a = Some a' -> Q (a' j).
Proof.
  revert a'. induction n as [|n IH]; intros a' Hi Hw Hf Hrun; [lia|].
  simpl in Hrun.
  destruct (for_loopM n body a) as [a1|] eqn:E; [|discriminate].
  destruct (Nat.eq_dec i n) as [->|Hne].
  - eapply Hw; eauto.
  - rewrite (Hf n a1 a') by (assumption || lia).
    apply IH; [lia | exact Hw | | reflexivity].
    intros i' x y Hi' Hy. apply (Hf i' x y); [lia | exact Hy].
Qed.

Lemma for_loop_frame (body : nat -> buf -> buf) n a j :
  (forall i x, (i < n)%nat -> body i x j = x j) -> for_loop n body a j = a j.
Proof.
  induction n as [|n IH]; intros Hb; simpl; [reflexivity|].
  rewrite Hb by lia. apply IH. intros; apply Hb; lia.
Qed.

Lemma for_loop_last (body : nat -> buf -> buf) n a i j v :
  (i < n)%nat ->
  (forall x, body i x j = v) ->
  (forall i' x, (i < i' < n)%nat -> body i' x j = x j) ->
  for_loop n body a j = v.
Proof.
  induction n as [|n IH]; intros Hi Hw Hf; [lia|]. simpl.
  destruct (Nat.eq_dec i n) as [->|Hne]; [apply Hw|].
  rewrite Hf by lia. apply IH; auto; [lia|]. intros; apply Hf; lia.
Qed.

Lemma all_upto_true n p : (forall k, (k < n)%nat -> p k = true) -> all_upto n p = true.
Proof.
  induction n as [|n IH]; intros Hp; simpl; [reflexivity|].
  rewrite IH by (intros; apply Hp; lia). now rewrite Hp by lia.
Qed.

Lemma diag_inv_nonzero n d :
  (forall k, (k < n)%nat -> d k <> 0) -> diag_inv n d = Some (fun k => / d k).
Proof.
  intros Hd. unfold diag_inv. rewrite all_upto_true; [reflexivity|].
  intros k Hk. destruct (Req_EM_T (d k) 0) as [E|]; [exfalso; now apply (Hd k)|].
  reflexivity.
Qed.

(** Column-major indices of a [V x P] slice. *)
Lemma slice_index V r k : (r < V)%nat -> ((r + V * k) mod V = r /\ (r + V * k) / V = k)%nat.
Proof.
  intros Hr. split.
  - rewrite Nat.mul_comm, Nat.Div0.mod_add. now apply Nat.mod_small.
  - rewrite Nat.mul_comm, Nat.div_add by lia. now rewrite Nat.div_small.
Qed.

(** The cell [(r, k, i)] of a [V x P x H] cube lies inside the cube. *)
Lemma slice_bound V P H r k i :
  (r < V)%nat -> (k < P)%nat -> (i < H)%nat -> (r + V * k + V * P * i < V * P * H)%nat.
Proof.
  intros Hr Hk Hi.
  assert (H1 : (r + V * k < V * P)%nat) by nia.
  assert (H2 : (V * P * i + V * P <= V * P * H)%nat) by nia.
  lia.
Qed.

(** Column [i] of [SlabMean]'s output is zero when [spike(i)] is zero. *)
Lemma SlabMean_col_zero st visible spike soff tgt toff out i k :
  SlabMean st visible spike soff tgt toff = Some out ->
  (i < hiddenSize st)%nat -> (k < poolSize st)%nat ->
  spike (soff + i)%nat = 0 ->
  out (toff + k + poolSize st * i)%nat = 0.
Proof.
  intros Hrun Hi Hk Hs. unfold SlabMean in Hrun.
  refine (for_loopM_last _ (fun x => x = 0) _ tgt out i _ Hi _ _ Hrun).
  - intros x y E. cbv beta in E. destruct (diag_inv _ _); [|discriminate].
    injection E as <-. rewrite write_block_in by lia.
    apply sum_upto_zero. intros r0 _. rewrite Hs. ring.
  - intros i' x y Hi' E. cbv beta in E. destruct (diag_inv _ _); [|discriminate].
    injection E as <-. apply write_block_out. nia.
Qed.

(** A loop whose iteration [i] stores [c i] (when defined) at [toff + i]. *)
Section StoreLoop.
Variable body : nat -> buf -> option buf.
Variable c : nat -> option R.
Variable toff : nat.
Hypothesis Hbody : forall i x,
  body i x = match c i with Some v => Some (upd x (toff + i)%nat v) | None => None end.

Lemma store_loop_values n a a' :
  for_loopM n body a = Some a' ->
  forall i, (i < n)%nat -> exists v, c i = Some v /\ a' (toff + i)%nat = v.
Proof.
  intros Hrun i Hi.
  refine (for_loopM_last body (fun y => exists v, c i = Some v /\ y = v)
            n a a' i _ Hi _ _ Hrun).
  - intros x y E. rewrite Hbody in E. destruct (c i) as [v|]; [|discriminate].
    injection E as <-. exists v. split; [reflexivity|]. apply upd_same.
  - intros i' x y Hi' E. rewrite Hbody in E. destruct (c i'); [|discriminate].
    injection E as <-. apply upd_other. lia.
Qed.

Lemma store_loop_runs n :
  (forall i, (i < n)%nat -> c i <> None) ->
  forall a, exists a', for_loopM n body a = Some a'.
Proof.
  induction n as [|n IH]; intros Hc a; simpl; [eauto|].
  destruct (IH (fun i Hi => Hc i ltac:(lia)) a) as [a1 ->].
  rewrite Hbody. destruct (c n) eqn:E; [eauto|]. exfalso. apply (Hc n); [lia | exact E].
Qed.

End StoreLoop.

(** [SpikeMean] stores the same spike means whatever buffer it writes into. *)
Lemma SpikeMean_target st visible t1 toff1 r1 t2 toff2 :
  SpikeMean st visible t1 toff1 = Some r1 ->
  exists r2, SpikeMean st visible t2 toff2 = Some r2 /\
    forall i, (i < hiddenSize st)%nat -> r1 (toff1 + i)%nat = r2 (toff2 + i)%nat.
Proof.
  intros Hrun. unfold SpikeMean in *.
  set (c := fun i =>
    dinv <- diag_inv (poolSize st) (fun k => alpha st k i);;
    Some (logistic (0.5 * sum_upto (visibleSize st) (fun r =>
      sum_upto (poolSize st) (fun k =>
        sum_upto (visibleSize st) (fun r' => visible r' * W st r' k i) * dinv k
        * W st r k i) * visible r) + b st i))).
  assert (H1 : forall toff i x,
    (fun i bf =>
       dinv <- diag_inv (poolSize st) (fun k => alpha st k i);;
       Some (upd bf (toff + i)%nat (logistic (0.5 * sum_upto (visibleSize st) (fun r =>
         sum_upto (poolSize st) (fun k =>
           sum_upto (visibleSize st) (fun r' => visible r' * W st r' k i) * dinv k
           * W st r k i) * visible r) + b st i)))) i x
    = match c i with Some v => Some (upd x (toff + i)%nat v) | None => None end).
  { intros toff i x. unfold c. cbv beta. destruct (diag_inv _ _); reflexivity. }
  pose proof (store_loop_values _ c toff1 (H1 toff1) _ _ _ Hrun) as Hv.
  destruct (store_loop_runs _ c toff2 (H1 toff2) (hiddenSize st)
              (fun i Hi E => match Hv i Hi with ex_intro _ v (conj Hc _) =>
                               ltac:(congruence) end) t2) as [r2 Hr2].
  exists r2. split; [exact Hr2|].
  intros i Hi.
  destruct (Hv i Hi) as [v [Hc1 Hv1]].
  destruct (store_loop_values _ c toff2 (H1 toff2) _ _ _ Hr2 i Hi) as [v' [Hc2 Hv2]].
  congruence.
Qed.

(** [SlabMean] leaves the target below its offset alone. *)
Lemma SlabMean_below st visible spike soff tgt toff out j :
  SlabMean st visible spike soff tgt toff = Some out -> (j < toff)%nat -> out j = tgt j.
Proof.
  intros Hrun Hj. unfold SlabMean in Hrun.
  refine (for_loopM_frame _ _ tgt out j _ Hrun).
  intros i x y _ E. cbv beta in E. destruct (diag_inv _ _); [|discriminate].
  injection E as <-. apply write_block_out. lia.
Qed.

(** [SampleSpike] reads the means only at [moff + i], [i < hiddenSize]. *)
Lemma SampleSpike_means st m1 m2 moff tgt toff gen :
  (forall i, (i < hiddenSize st)%nat -> m1 (moff + i)%nat = m2 (moff + i)%nat) ->
  SampleSpike st m1 moff tgt toff gen = SampleSpike st m2 moff tgt toff gen.
Proof.
  intros Hm. unfold SampleSpike.
  assert (forall n, (n <= hiddenSize st)%nat ->
    for_loop n (fun i '(bf, g) =>
      let (u, g') := next g in
      (upd bf (toff + i)%nat (rand_bernoulli (m1 (moff + i)%nat) u), g')) (tgt, gen)
    = for_loop n (fun i '(bf, g) =>
      let (u, g') := next g in
      (upd bf (toff + i)%nat (rand_bernoulli (m2 (moff + i)%nat) u), g')) (tgt, gen))
    as Hn.
  { induction n as [|n IH]; intros Hle; [reflexivity|].
    cbn [for_loop]. rewrite IH by lia. destruct (for_loop n _ _) as [bf g].
    rewrite Hm by lia. reflexivity. }
  apply Hn. lia.
Qed.

(** The logistic function takes its values in [(0, 1)]. *)
Lemma logistic_bounds x : 0 < logistic x < 1.
Proof.
  unfold logistic. pose proof (exp_pos (- x)) as He. split.
  - apply Rinv_0_lt_compat. lra.
  - rewrite <- Rinv_1. apply Rinv_lt_contravar; lra.
Qed.

Lemma diag_inv_Some_inv n d f : diag_inv n d = Some f -> f = fun k => / d k.
Proof. unfold diag_inv. destruct (all_upto _ _); intros E; [now injection E|discriminate]. Qed.

(** Repeated [output += t(i)] on the block [[0, V)] adds up the [t(i)]. *)
Lemma accumulate_block (t : nat -> nat -> R) V n a r :
  (r < V)%nat ->
  for_loop n (fun i bf => write_block bf 0 V (fun r => bf r + t i r)) a r
    = a r + sum_upto n (fun i => t i r).
Proof.
  intros Hr. induction n as [|n IH]; simpl; [ring|].
  rewrite write_block_in by lia. rewrite Nat.sub_0_r, IH. ring.
Qed.

(** One trial of [SampleVisible] takes [visibleSize] draws from the stream. *)
Lemma draw_visible_pos st bf gen bf' gen' :
  draw_visible st bf gen = Some (bf', gen') ->
  draws gen' = draws gen /\ pos gen' = (pos gen + visibleSize st)%nat.
Proof.
  unfold draw_visible. generalize (visibleSize st) as n. intros n. revert bf' gen'.
  induction n as [|n IH]; intros bf' gen' Hrun; cbn [for_loopM] in Hrun.
  - injection Hrun as <- <-. split; [reflexivity|lia].
  - destruct (for_loopM n _ (bf, gen)) as [[b1 g1]|]; [|discriminate].
    destruct (IH b1 g1 eq_refl) as [Hd Hp]. cbv beta iota in Hrun.
    destruct (Rlt_dec 0 (vp st n)); [|discriminate].
    injection Hrun as <- <-. cbn. split; [exact Hd|lia].
Qed.

(** With a positive visible precision every trial succeeds. *)
Lemma draw_visible_ok st bf gen :
  (forall i, (i < visibleSize st)%nat -> 0 < vp st i) ->
  exists bf' gen', draw_visible st bf gen = Some (bf', gen').
Proof.
  unfold draw_visible. generalize (visibleSize st) as n. intros n Hvp.
  induction n as [|n IH]; cbn [for_loopM]; [eauto|].
  destruct IH as [b1 [g1 ->]]; [intros i Hi; apply Hvp; lia|]. cbv beta iota.
  destruct (Rlt_dec 0 (vp st n)) as [_|Hn]; [do 2 eexists; reflexivity|].
  exfalso. apply Hn, Hvp. lia.
Qed.

Lemma iter_draws_pos st n bf gen bf' gen' :
  iter_draws st n bf gen = Some (bf', gen') ->
  pos gen' = (pos gen + n * visibleSize st)%nat.
Proof.
  revert bf gen. induction n as [|n IH]; intros bf gen Hrun; simpl in Hrun.
  - injection Hrun as <- <-. lia.
  - destruct (draw_visible st bf gen) as [[b1 g1]|] eqn:E; [|discriminate].
    destruct (draw_visible_pos _ _ _ _ _ E) as [_ Hp].
    rewrite (IH _ _ Hrun), Hp. lia.
Qed.

(** The trial loop with [S k] trials left stops after the first trial whose
    draw lies inside the radius, or after the last trial, and returns that
    trial's draw. *)
Lemma visible_trials_char st k bf gen :
  (forall i, (i < visibleSize st)%nat -> 0 < vp st i) ->
  exists n bf' gen',
    (1 <= n <= S k)%nat /\
    visible_trials st (S k) bf gen = Some (bf', gen') /\
    iter_draws st n bf gen = Some (bf', gen') /\
    (forall j, (1 <= j < n)%nat -> exists bj gj,
        iter_draws st j bf gen = Some (bj, gj) /\
        radius st <= norm2 (visibleSize st) bj) /\
    (norm2 (visibleSize st) bf' < radius st \/ n = S k).
Proof.
  intros Hvp. revert bf gen. induction k as [|k IH]; intros bf gen;
    destruct (draw_visible_ok st bf gen Hvp) as [b1 [g1 E1]].
  - exists 1%nat, b1, g1. cbn [visible_trials iter_draws]. rewrite E1.
    split; [lia|]. split; [destruct (Rlt_dec _ _); reflexivity|].
    split; [reflexivity|]. split; [intros j Hj; lia|].
    destruct (Rlt_dec (norm2 (visibleSize st) b1) (radius st)); [left|right]; auto.
  - cbn [visible_trials]. rewrite E1.
    destruct (Rlt_dec (norm2 (visibleSize st) b1) (radius st)) as [Hlt|Hge].
    + exists 1%nat, b1, g1. cbn [iter_draws]. rewrite E1.
      split; [lia|]. split; [reflexivity|]. split; [reflexivity|].
      split; [intros j Hj; lia|]. left; exact Hlt.
    + destruct (IH b1 g1) as [n [b' [g' [Hn [Ht [Hi [Hj Hend]]]]]]].
      exists (S n), b', g'. split; [lia|]. split; [exact Ht|].
      split; [cbn [iter_draws]; rewrite E1; exact Hi|].
      split.
      * intros j Hj1. destruct j as [|j]; [lia|]. destruct j as [|j].
        -- exists b1, g1. cbn [iter_draws]. rewrite E1. split; [reflexivity|].
           apply Rnot_lt_le. exact Hge.
        -- destruct (Hj (S j)) as [bj [gj [Ej Nj]]]; [lia|].
           exists bj, gj. cbn [iter_draws]. rewrite E1. split; [exact Ej|exact Nj].
      * destruct Hend as [Hl|He]; [left; exact Hl|right; lia].
Qed.

(** On a one-unit model of visible precision 1, a draw adds the standard
    normal draw to the mean. *)
Lemma rand_normal_unit m z : rand_normal m (1 / 1) z = m + z.
Proof. unfold rand_normal. rewrite Rdiv_1_r, sqrt_1. ring. Qed.

Lemma norm2_one (v : buf) : norm2 1 v = Rabs (v 0%nat).
Proof. unfold norm2. cbn. rewrite Rplus_0_l. apply sqrt_Rsqr_abs. Qed.

Lemma tiny_draw_visible rad bf gen :
  draw_visible (tiny 1 rad) bf gen
    = Some (upd bf 0 (bf 0%nat + draws gen (pos gen)), mkRng (draws gen) (S (pos gen))).
Proof.
  unfold draw_visible. cbn. destruct (Rlt_dec 0 1) as [_|Hn]; [|lra].
  rewrite rand_normal_unit. reflexivity.
Qed.

Lemma tiny_draw_visible_spec rad mean bf gen :
  draw_visible_spec (tiny 1 rad) mean bf gen
    = Some (upd bf 0 (mean 0%nat + draws gen (pos gen)), mkRng (draws gen) (S (pos gen))).
Proof.
  unfold draw_visible_spec. cbn. destruct (Rlt_dec 0 1) as [_|Hn]; [|lra].
  rewrite rand_normal_unit. reflexivity.
Qed.

(** On [tiny 1 rad], once the generator only yields zeros after its first
    draw, every trial of [SampleVisible] reproduces the first trial's value. *)
Lemma tiny_trials_stay rad k bf gen :
  (forall n, (pos gen < n)%nat -> draws gen n = 0) ->
  exists bf' gen',
    visible_trials (tiny 1 rad) (S k) bf gen = Some (bf', gen') /\
    bf' 0%nat = bf 0%nat + draws gen (pos gen).
Proof.
  revert bf gen. induction k as [|k IH]; intros bf gen Hz;
    cbn [visible_trials]; rewrite tiny_draw_visible;
    destruct (Rlt_dec _ _) as [Hacc|Hrej].
  - do 2 eexists. split; [reflexivity|]. reflexivity.
  - do 2 eexists. split; [reflexivity|]. reflexivity.
  - do 2 eexists. split; [reflexivity|]. reflexivity.
  - destruct (IH (upd bf 0 (bf 0%nat + draws gen (pos gen)))
                 (mkRng (draws gen) (S (pos gen)))) as [bf' [gen' [E V]]].
    { intros n Hn. apply Hz. cbn in Hn. lia. }
    exists bf', gen'. split; [exact E|]. rewrite V. cbn [upd Nat.eqb draws pos].
    rewrite (Hz (S (pos gen))) by lia. ring.
Qed.

(** ** Layout of the parameter and gradient buffers *)

(** C6: after [Reset], the weight, spike-bias and visible-precision views
    occupy [[0, V*P*H)], [[V*P*H, V*P*H+H)] and [[V*P*H+H, V*P*H+H+V)] of the
    parameter buffer, and [PositivePhase] and [NegativePhase] carve the
    gradient buffer into views at exactly the same offsets and shapes. *)
Theorem Reset_layout (st : policy) :
  let V := visibleSize st in
  let H := hiddenSize st in
  let P := poolSize st in
  let st' := Reset st in
  v_off (weight st') = 0%nat /\ n_elem (weight st') = (V * P * H)%nat /\
  v_off (spikeBias st') = (V * P * H)%nat /\ n_elem (spikeBias st') = H /\
  v_off (visiblePenalty st') = (V * P * H + H)%nat /\
  n_elem (visiblePenalty st') = V /\
  positive_views V H P = (weight st', spikeBias st', visiblePenalty st') /\
  negative_views V H P = (weight st', spikeBias st', visiblePenalty st').
Proof.
  cbn. unfold n_elem; cbn.
  repeat split; f_equal; lia.
Qed.

(** ** Free energy *)

(** C5: with [V = 3], [H = 1], [P = 1], [slabPenalty = [[1.0]]] and
    [radius = 10], whatever the contents of the parameter buffer, the free
    energy of the visible vector [[0, 0, 0]] after [Reset] is
    [-0.5 * log(2 pi) - softplus(spikeBias(0))]. *)
Theorem FreeEnergy_origin (init : buf) (w0 sb0 vp0 : view) (sm0 ss0 slm0 : buf) :
  exists st,
    construct 3 1 1 (mkMat 1 1 (fun _ => 1)) 10 init w0 sb0 vp0 sm0 ss0 slm0
      = Some st /\
    FreeEnergy (Reset st) (fun r => nth r [0; 0; 0] 0)
      = -0.5 * ln (2 * PI) - softplus (b (Reset st) 0).
Proof.
  eexists; split; [reflexivity|].
  unfold FreeEnergy, alpha, W, b, vp; cbn.
  rewrite Rdiv_1_r.
  replace (init 3%nat + _) with (init 3%nat) by field.
  lra.
Qed.

(** ** Evaluate *)

(** C9: [Evaluate] returns 0 for every predictors matrix, index and model. *)
Theorem Evaluate_zero (st : policy) (predictors : mat) (i : nat) :
  Evaluate st predictors i = 0.
Proof. reflexivity. Qed.

(** ** The two phases *)

(** C7: [PositivePhase] and [NegativePhase] are the same procedure: on the
    same model, visible vector, gradient buffer and random draws they give
    the same gradient buffer, the same model (scratch buffers included) and
    the same generator state. *)
Theorem PositivePhase_NegativePhase (st : policy) (input gradient : buf) (gen : rng) :
  PositivePhase st input gradient gen = NegativePhase st input gradient gen.
Proof. reflexivity. Qed.

(** ** Slab mean *)

(** C8: for every visible vector and spike vector, column [i] of the matrix
    [SlabMean] produces is the zero vector whenever [spike(i)] is 0. *)
Theorem SlabMean_gate_off st visible spike soff tgt toff out i :
  SlabMean st visible spike soff tgt toff = Some out ->
  (i < hiddenSize st)%nat ->
  spike (soff + i)%nat = 0 ->
  forall k, (k < poolSize st)%nat -> out (toff + k + poolSize st * i)%nat = 0.
Proof. intros Hrun Hi Hs k Hk. eapply SlabMean_col_zero; eauto. Qed.

Lemma SlabMean_gate_off_witness :
  exists out,
    SlabMean (tiny 1 10) (fun _ => 1) (fun _ => 0) 0 (fun _ => 0) 0 = Some out /\
    out 0%nat = 0.
Proof.
  assert (E : exists out,
    SlabMean (tiny 1 10) (fun _ => 1) (fun _ => 0) 0 (fun _ => 0) 0 = Some out).
  { eexists. unfold SlabMean, diag_inv. cbn.
    destruct (Req_EM_T 1 0); [lra|reflexivity]. }
  destruct E as [out E]. exists out. split; [exact E|].
  change (out (0 + 0 + poolSize (tiny 1 10) * 0)%nat = 0).
  apply (SlabMean_gate_off _ _ _ _ _ _ out 0 E); cbn; [lia|reflexivity|lia].
Defined.

(** ** Hidden mean *)

(** C10: the first [H] entries of [HiddenMean]'s output are the spike means
    (what [SpikeMean] computes, whatever buffer it writes into), not a
    Bernoulli sample; the spike sampled from them goes to the scratch buffer
    [spikeSamples] only. *)
Theorem HiddenMean_spike_means st input out fresh gen st' out' gen' :
  HiddenMean st input out fresh gen = Some (st', out', gen') ->
  exists sm,
    SpikeMean st input (spikeMean st) 0 = Some sm /\
    (forall i, (i < hiddenSize st)%nat -> mem out' i = sm i) /\
    spikeSamples st' = fst (SampleSpike st sm 0 (spikeSamples st) 0 gen) /\
    spikeMean st' = spikeMean st /\ slabMean st' = slabMean st.
Proof.
  intros Hrun. unfold HiddenMean in Hrun.
  destruct (SpikeMean st input _ 0) as [b1|] eqn:E1; [|discriminate].
  destruct (SampleSpike st b1 0 (spikeSamples st) 0 gen) as [ss gen1] eqn:E2.
  destruct (SlabMean st input ss 0 b1 _) as [b2|] eqn:E3; [|discriminate].
  injection Hrun as <- <- <-.
  destruct (SpikeMean_target _ _ _ _ _ (spikeMean st) 0 E1) as [sm [Hsm Heq]].
  exists sm. split; [exact Hsm|]. split; [|split; [|split; reflexivity]].
  - intros i Hi. cbn. rewrite (SlabMean_below _ _ _ _ _ _ _ _ E3) by lia.
    exact (Heq i Hi).
  - cbn. rewrite <- (SampleSpike_means st b1 sm 0); [now rewrite E2|].
    exact Heq.
Qed.

Lemma HiddenMean_spike_means_witness :
  exists st' out' gen',
    HiddenMean (tiny 1 10) (fun _ => 1) (mkMat 2 1 (fun _ => 0)) (fun _ => 0)
      (stream2 0 0) = Some (st', out', gen') /\
    exists sm, SpikeMean (tiny 1 10) (fun _ => 1) (spikeMean (tiny 1 10)) 0 = Some sm /\
      mem out' 0%nat = sm 0%nat.
Proof.
  assert (E : exists r, HiddenMean (tiny 1 10) (fun _ => 1) (mkMat 2 1 (fun _ => 0))
                         (fun _ => 0) (stream2 0 0) = Some r).
  { eexists. unfold HiddenMean, SpikeMean, SlabMean, diag_inv. cbn.
    destruct (Req_EM_T 1 0); [lra|reflexivity]. }
  destruct E as [[[st' out'] gen'] E].
  exists st', out', gen'. split; [exact E|].
  destruct (HiddenMean_spike_means _ _ _ _ _ _ _ _ E) as [sm [Hsm [Hout _]]].
  exists sm. split; [exact Hsm|]. apply Hout. cbn. lia.
Defined.

(** ** Weight gradient of the two phases *)

(** C2 (amended): in [PositivePhase] and [NegativePhase], slice [i] of the
    weight gradient is the outer product of the input with column [i] of the
    slab mean, scaled by the spike MEAN [spikeMean(i)]; the slab mean is
    conditioned on the sampled spike, so the slice is zero whenever the
    sampled spike [spikeSamples(i)] is 0.  The scratch buffers hold the spike
    means, the spike sampled from them and the slab mean given that sample. *)
Theorem Phase_weight_grad st input grad gen st' g' gen' :
  (PositivePhase st input grad gen = Some (st', g', gen') \/
   NegativePhase st input grad gen = Some (st', g', gen')) ->
  let V := visibleSize st in
  let H := hiddenSize st in
  let P := poolSize st in
  SpikeMean st input (spikeMean st) 0 = Some (spikeMean st') /\
  spikeSamples st' = fst (SampleSpike st (spikeMean st') 0 (spikeSamples st) 0 gen) /\
  SlabMean st input (spikeSamples st') 0 (slabMean st) 0 = Some (slabMean st') /\
  forall i r k, (i < H)%nat -> (r < V)%nat -> (k < P)%nat ->
    g' (r + V * k + V * P * i)%nat
      = input r * slabMean st' (k + P * i)%nat * spikeMean st' i /\
    (spikeSamples st' i = 0 -> g' (r + V * k + V * P * i)%nat = 0).
Proof.
  intros Hrun.
  assert (Hpos : PositivePhase st input grad gen = Some (st', g', gen'))
    by (destruct Hrun as [Hr|Hr]; [exact Hr | exact Hr]).
  clear Hrun. intros V H P.
  unfold PositivePhase, positive_views in Hpos. cbv beta iota zeta in Hpos.
  destruct (SpikeMean st input (spikeMean st) 0) as [sm|] eqn:E1; [|discriminate].
  destruct (SampleSpike st sm 0 (spikeSamples st) 0 gen) as [ss gen1] eqn:E2.
  destruct (SlabMean st input ss 0 (slabMean st) 0) as [slm|] eqn:E3; [|discriminate].
  injection Hpos as <- <- <-. cbn [spikeMean spikeSamples slabMean set_scratch].
  split; [reflexivity|]. split; [now rewrite E2|]. split; [exact E3|].
  intros i r k Hi Hr Hk. unfold V, P, H in *. clear V P H.
  unfold n_elem; cbn [v_rows v_cols v_slices v_off].
  assert (Hval : for_loop (hiddenSize st) (fun i0 g =>
      write_block g (visibleSize st * poolSize st * i0)%nat
        (visibleSize st * poolSize st)%nat
        (fun t => input (t mod visibleSize st)%nat
                  * slm (t / visibleSize st + poolSize st * i0)%nat * sm i0))
      grad (r + visibleSize st * k + visibleSize st * poolSize st * i)%nat
      = input r * slm (k + poolSize st * i)%nat * sm i).
  { apply (for_loop_last _ _ _ i); [exact Hi| |].
    - intros x. rewrite write_block_in by nia.
      replace (r + visibleSize st * k + visibleSize st * poolSize st * i
               - visibleSize st * poolSize st * i)%nat
        with (r + visibleSize st * k)%nat by lia.
      destruct (slice_index (visibleSize st) r k Hr) as [-> ->]. reflexivity.
    - intros i' x Hi'. apply write_block_out. nia. }
  rewrite for_loop_frame.
  2:{ intros i' x Hi'. apply upd_other.
    pose proof (slice_bound _ _ _ _ _ _ Hr Hk Hi). lia. }
  rewrite for_loop_frame.
  2:{ intros i' x Hi'. apply upd_other.
    pose proof (slice_bound _ _ _ _ _ _ Hr Hk Hi). lia. }
  rewrite Hval. split; [reflexivity|].
  intros Hs. pose proof (SlabMean_col_zero _ _ _ _ _ _ _ i k E3 Hi Hk Hs) as Z.
  cbn in Z. rewrite Z. ring.
Qed.

(** [PositivePhase] runs on [tiny 1 10] with the input [[1]]. *)
Lemma PositivePhase_tiny_runs :
  exists r, PositivePhase (tiny 1 10) (fun _ => 1) (fun _ => 0) (stream2 0 0) = Some r.
Proof.
  destruct (PositivePhase (tiny 1 10) (fun _ => 1) (fun _ => 0) (stream2 0 0))
    as [r|] eqn:E; [eauto|].
  revert E. unfold PositivePhase, positive_views, SpikeMean, SlabMean, SampleSpike,
    diag_inv, rand_bernoulli; cbn.
  destruct (Req_dec_T 1 0); [lra|]. cbn.
  destruct (Rlt_dec 0 _); discriminate.
Qed.

Lemma Phase_weight_grad_witness :
  exists st' g' gen',
    PositivePhase (tiny 1 10) (fun _ => 1) (fun _ => 0) (stream2 0 0)
      = Some (st', g', gen') /\
    g' 0%nat = 1 * slabMean st' 0%nat * spikeMean st' 0%nat.
Proof.
  destruct PositivePhase_tiny_runs as [[[st' g'] gen'] E].
  exists st', g', gen'. split; [exact E|].
  destruct (Phase_weight_grad _ _ _ _ _ _ _ (or_introl E)) as [_ [_ [_ Hg]]].
  destruct (Hg 0%nat 0%nat 0%nat) as [Hv _]; cbn; [lia|lia|lia|].
  exact Hv.
Defined.

(** C2 as stated fails: on [tiny 1 10] with input [[1]] and a first uniform
    draw of 0, the spike fires ([spikeSamples(0) = 1]) but the weight
    gradient [g'(0)] is [slabMean(0) * logistic(1.5)], not
    [input(0) * slabMean(0) * spikeSamples(0) = 1]. *)
Lemma Phase_weight_grad_by_sample_fails :
  ~ (forall st' g' gen',
       PositivePhase (tiny 1 10) (fun _ => 1) (fun _ => 0) (stream2 0 0)
         = Some (st', g', gen') ->
       g' 0%nat = 1 * slabMean st' 0%nat * spikeSamples st' 0%nat).
Proof.
  intros Hclaim.
  destruct PositivePhase_tiny_runs as [[[st' g'] gen'] E].
  specialize (Hclaim _ _ _ E). revert E Hclaim.
  unfold PositivePhase, positive_views, SpikeMean, SlabMean, SampleSpike,
    diag_inv, rand_bernoulli; cbn.
  destruct (Req_dec_T 1 0); [lra|]. cbn.
  match goal with |- context [Rlt_dec 0 (logistic ?x)] =>
    pose proof (logistic_bounds x) as Hl; destruct (Rlt_dec 0 (logistic x)); [|lra]
  end.
  intros E. injection E as <- <- <-. cbn.
  unfold write_block, upd; cbn. intros Hc.
  rewrite !Rinv_1 in *. lra.
Qed.

(** ** Visible mean *)

(** C1 (what the code computes): [VisibleMean] adds the weighted slab sum to
    the contents the caller's [output] already holds ([set_size] keeps the
    memory of a matrix of the right size and nothing zeroes it), so when
    [output] already has [V] elements the result is
    [diag(visiblePenalty)^-1 * (old output + sum_i weight[i] slab[:,i] spike[i])]. *)
Theorem VisibleMean_accumulates st hidden out fresh m :
  (n_rows out * n_cols out = visibleSize st)%nat ->
  VisibleMean st hidden out fresh = Some m ->
  forall r, (r < visibleSize st)%nat ->
    mem m r = / vp st r * (mem out r
      + sum_upto (hiddenSize st) (fun i =>
          sum_upto (poolSize st) (fun k =>
            W st r k i * hidden (hiddenSize st + k + poolSize st * i)%nat)
          * hidden i)).
Proof.
  intros Hsz Hrun r Hr. unfold VisibleMean, set_size in Hrun.
  rewrite Hsz, Nat.mul_1_r, Nat.eqb_refl in Hrun. cbn [mem] in Hrun.
  destruct (diag_inv _ _) as [dinv|] eqn:Ed; [|discriminate].
  apply diag_inv_Some_inv in Ed. subst dinv.
  injection Hrun as <-. cbn [mem].
  rewrite write_block_in by lia. rewrite Nat.sub_0_r.
  rewrite (accumulate_block (fun i r =>
    sum_upto (poolSize st) (fun k =>
      W st r k i * hidden (hiddenSize st + k + poolSize st * i)%nat) * hidden i))
    by exact Hr.
  reflexivity.
Qed.

(** [VisibleMean] runs on [tiny 1 10]. *)
Lemma VisibleMean_tiny_runs :
  exists m, VisibleMean (tiny 1 10) (fun _ => 0) (mkMat 1 1 (fun _ => 5)) (fun _ => 0)
              = Some m.
Proof.
  eexists. unfold VisibleMean, diag_inv. cbn.
  destruct (Req_dec_T 1 0); [lra|reflexivity].
Qed.

Lemma VisibleMean_accumulates_witness :
  exists m,
    VisibleMean (tiny 1 10) (fun _ => 0) (mkMat 1 1 (fun _ => 5)) (fun _ => 0) = Some m /\
    mem m 0%nat = / 1 * (5 + (0 + (0 + 1 * 0) * 0)).
Proof.
  destruct VisibleMean_tiny_runs as [m E]. exists m. split; [exact E|].
  exact (VisibleMean_accumulates (tiny 1 10) _ (mkMat 1 1 (fun _ => 5)) _ m eq_refl E
           0%nat ltac:(cbn; lia)).
Defined.

(** C1 as stated fails: with [V = H = P = 1], visible precision 1, the hidden
    input [[0; 0]] and a caller's [1 x 1] output buffer holding 5, the
    visible mean the spec gives is 0 but [VisibleMean] returns 5. *)
Lemma VisibleMean_prior_contents_leak :
  exists m,
    VisibleMean (tiny 1 10) (fun _ => 0) (mkMat 1 1 (fun _ => 5)) (fun _ => 0) = Some m /\
    visible_mean_spec (tiny 1 10) (fun _ => 0) 0 = 0 /\
    mem m 0%nat = 5.
Proof.
  destruct VisibleMean_tiny_runs as [m E]. exists m. split; [exact E|].
  split.
  - unfold visible_mean_spec. cbn. ring.
  - revert E. unfold VisibleMean, diag_inv. cbn.
    destruct (Req_dec_T 1 0); [lra|].
    intros E. injection E as <-. cbn. field.
Qed.

(** ** Visible sampler *)

(** C4: with a positive visible precision, [SampleVisible] never fails
    because of the radius: it performs [n] full-vector draws for some
    [1 <= n <= 10] (it consumes [n * V] draws of the generator), every
    earlier trial's vector had norm at least [radius], it stops at the first
    trial whose vector has norm below [radius], and if none has it returns
    the tenth (out-of-radius) draw. *)
Theorem SampleVisible_bounded st hidden out fresh gen m :
  (forall i, (i < visibleSize st)%nat -> 0 < vp st i) ->
  VisibleMean st hidden out fresh = Some m ->
  exists n bf gen',
    (1 <= n <= 10)%nat /\
    SampleVisible st hidden out fresh gen = Some (mkMat (n_rows m) (n_cols m) bf, gen') /\
    iter_draws st n (mem m) gen = Some (bf, gen') /\
    pos gen' = (pos gen + n * visibleSize st)%nat /\
    (forall j, (1 <= j < n)%nat -> exists bj gj,
        iter_draws st j (mem m) gen = Some (bj, gj) /\
        radius st <= norm2 (visibleSize st) bj) /\
    (norm2 (visibleSize st) bf < radius st \/ n = 10%nat).
Proof.
  intros Hvp Hm.
  destruct (visible_trials_char st 9 (mem m) gen Hvp)
    as [n [bf [gen' [Hn [Ht [Hi [Hj Hend]]]]]]].
  exists n, bf, gen'. split; [exact Hn|].
  split; [unfold SampleVisible; rewrite Hm; unfold numMaxTrials; rewrite Ht; reflexivity|].
  split; [exact Hi|]. split; [exact (iter_draws_pos _ _ _ _ _ _ Hi)|].
  split; [exact Hj|exact Hend].
Qed.

Lemma SampleVisible_bounded_witness :
  exists m n bf gen',
    VisibleMean (tiny 1 10) (fun _ => 0) (mkMat 1 1 (fun _ => 5)) (fun _ => 0) = Some m /\
    (1 <= n <= 10)%nat /\
    SampleVisible (tiny 1 10) (fun _ => 0) (mkMat 1 1 (fun _ => 5)) (fun _ => 0)
      (stream2 0 0) = Some (mkMat (n_rows m) (n_cols m) bf, gen').
Proof.
  destruct VisibleMean_tiny_runs as [m E].
  assert (Hvp : forall i, (i < visibleSize (tiny 1 10))%nat -> 0 < vp (tiny 1 10) i)
    by (intros i _; cbn; lra).
  destruct (SampleVisible_bounded _ _ _ _ (stream2 0 0) m Hvp E)
    as [n [bf [gen' [Hn [Hs _]]]]].
  exists m, n, bf, gen'. split; [exact E|]. split; [exact Hn|exact Hs].
Defined.

(** C3 as stated fails: every trial after the first is drawn around the
    previous trial's draw (the loop overwrites [output(i)], which it also
    reads as the mean), not around the visible mean.  On [tiny 1 1]
    (radius 1) with a zero visible mean and standard normal draws 2, 0, 0,
    ..., the first trial gives 2 (norm 2, rejected); the sampler of the claim
    then draws [0 + 0 = 0] and accepts it, while [SampleVisible] draws
    [2 + 0 = 2] in every later trial and returns 2. *)
Lemma SampleVisible_mean_drifts :
  exists m1 g1 m2 g2,
    SampleVisible (tiny 1 1) (fun _ => 0) (mkMat 1 1 (fun _ => 0)) (fun _ => 0)
      (stream2 2 0) = Some (m1, g1) /\
    SampleVisible_spec (tiny 1 1) (fun _ => 0) (mkMat 1 1 (fun _ => 0)) (fun _ => 0)
      (stream2 2 0) = Some (m2, g2) /\
    mem m1 0%nat = 2 /\ mem m2 0%nat = 0.
Proof.
  assert (Hm : exists bm,
    VisibleMean (tiny 1 1) (fun _ => 0) (mkMat 1 1 (fun _ => 0)) (fun _ => 0)
      = Some (mkMat 1 1 bm) /\ bm 0%nat = 0).
  { eexists. split.
    - unfold VisibleMean, diag_inv. cbn. destruct (Req_dec_T 1 0); [lra|reflexivity].
    - cbn. field. }
  destruct Hm as [bm [Em Hbm]].
  destruct (tiny_trials_stay 1 9 bm (stream2 2 0)) as [bf' [gen' [Et Hv]]].
  { intros n Hn. destruct n; [cbn in Hn; lia|reflexivity]. }
  unfold SampleVisible, SampleVisible_spec. rewrite Em. cbn [mem n_rows n_cols].
  unfold numMaxTrials. rewrite Et.
  cbn [visible_trials_spec]. rewrite tiny_draw_visible_spec.
  rewrite norm2_one. cbn [upd Nat.eqb draws pos stream2]. rewrite Hbm.
  destruct (Rlt_dec (Rabs (0 + 2)) (radius (tiny 1 1))) as [Hlt|_].
  { exfalso. cbn in Hlt. rewrite Rplus_0_l, Rabs_pos_eq in Hlt by lra. lra. }
  rewrite tiny_draw_visible_spec, norm2_one. cbn [upd Nat.eqb draws pos stream2].
  rewrite Hbm.
  destruct (Rlt_dec (Rabs (0 + 0)) (radius (tiny 1 1))) as [_|Hge].
  2:{ exfalso. apply Hge. cbn. rewrite Rplus_0_l, Rabs_R0. lra. }
  do 4 eexists. split; [reflexivity|]. split; [reflexivity|].
  cbn [mem]. split.
  - rewrite Hv, Hbm. cbn. ring.
  - cbn. ring.
Qed.

(** * Further properties of the policy *)

(** ** Failure of loops and of [diag(.).i()] *)

Lemma all_upto_false n p :
  all_upto n p = false <-> exists k, (k < n)%nat /\ p k = false.
Proof.
  induction n as [|n IH]; simpl.
  - split; [discriminate|intros [k [Hk _]]; lia].
  - rewrite Bool.andb_false_iff, IH. split.
    + intros [[k [Hk Hp]]|Hp]; [exists k; split; [lia|exact Hp]|exists n; split; [lia|exact Hp]].
    + intros [k [Hk Hp]]. destruct (Nat.eq_dec k n) as [->|Hne]; [right; exact Hp|].
      left. exists k. split; [lia|exact Hp].
Qed.

Lemma diag_inv_None n d : diag_inv n d = None <-> exists k, (k < n)%nat /\ d k = 0.
Proof.
  unfold diag_inv. destruct (all_upto _ _) eqn:E.
  - split; [discriminate|]. intros [k [Hk Hd]].
    assert (Hf : all_upto n (fun k => if Req_EM_T (d k) 0 then false else true) = false).
    { apply all_upto_false. exists k. split; [exact Hk|].
      destruct (Req_EM_T (d k) 0); [reflexivity|contradiction]. }
    congruence.
  - split; [intros _|intros _; reflexivity].
    apply all_upto_false in E. destruct E as [k [Hk Hp]]. exists k. split; [exact Hk|].
    destruct (Req_EM_T (d k) 0); [assumption|discriminate].
Qed.

(** A loop whose iteration [i] fails, whatever the state, exactly when [F i]
    holds fails exactly when [F i] holds for some [i < n]. *)
Lemma for_loopM_None {A : Type} (body : nat -> A -> option A) (F : nat -> Prop) n a :
  (forall i x, body i x = None <-> F i) ->
  (for_loopM n body a = None <-> exists i, (i < n)%nat /\ F i).
Proof.
  intros Hb. induction n as [|n IH]; simpl.
  - split; [discriminate|intros [i [Hi _]]; lia].
  - destruct (for_loopM n body a) as [a1|] eqn:E.
    + rewrite Hb. split.
      * intros HF. exists n. split; [lia|exact HF].
      * intros [i [Hi HF]]. destruct (Nat.eq_dec i n) as [->|Hne]; [exact HF|].
        exfalso. assert (Hx : exists i, (i < n)%nat /\ F i) by (exists i; split; [lia|exact HF]).
        apply IH in Hx. discriminate.
    + split; [intros _|reflexivity].
      destruct (proj1 IH eq_refl) as [i [Hi HF]]. exists i. split; [lia|exact HF].
Qed.


Lemma SlabMean_None st visible spike soff tgt toff :
  SlabMean st visible spike soff tgt toff = None <->
  exists i k, (i < hiddenSize st)%nat /\ (k < poolSize st)%nat /\ alpha st k i = 0.
Proof.
  unfold SlabMean. rewrite (for_loopM_None _
    (fun i => exists k, (k < poolSize st)%nat /\ alpha st k i = 0)).
  - split; [intros [i [Hi [k [Hk Ha]]]]|intros [i [k [Hi [Hk Ha]]]]]; eauto.
  - intros i x. cbv beta. rewrite <- diag_inv_None.
    destruct (diag_inv _ _); split; congruence.
Qed.



Lemma SpikeMean_values st visible tgt toff r :
  SpikeMean st visible tgt toff = Some r ->
  (forall i, (i < hiddenSize st)%nat -> 0 < r (toff + i)%nat < 1) /\
  (forall j, (j < toff \/ toff + hiddenSize st <= j)%nat -> r j = tgt j).
Proof.
  intros Hrun. unfold SpikeMean in Hrun. split.
  - intros i Hi.
    refine (for_loopM_last _ (fun y => 0 < y < 1) _ tgt r i (toff + i)%nat Hi _ _ Hrun).
    + intros x y E. cbv beta in E. destruct (diag_inv _ _); [|discriminate].
      injection E as <-. rewrite upd_same. apply logistic_bounds.
    + intros i' x y Hi' E. cbv beta in E. destruct (diag_inv _ _); [|discriminate].
      injection E as <-. apply upd_other. lia.
  - intros j Hj. refine (for_loopM_frame _ _ tgt r j _ Hrun).
    intros i x y Hi E. cbv beta in E. destruct (diag_inv _ _); [|discriminate].
    injection E as <-. apply upd_other. lia.
Qed.

(** ** Spike means *)

(** [SpikeMean] writes a probability strictly between 0 and 1 into each of
    its [H] target slots and leaves the rest of the target buffer alone. *)
Theorem SpikeMean_probabilities st visible tgt toff r :
  SpikeMean st visible tgt toff = Some r ->
  (forall i, (i < hiddenSize st)%nat -> 0 < r (toff + i)%nat < 1) /\
  (forall j, (j < toff \/ toff + hiddenSize st <= j)%nat -> r j = tgt j).
Proof. exact (SpikeMean_values st visible tgt toff r). Qed.

Lemma SpikeMean_probabilities_witness :
  exists r, SpikeMean (tiny 1 10) (fun _ => 1) (fun _ => 0) 0 = Some r /\
    0 < r 0%nat < 1.
Proof.
  assert (E : exists r, SpikeMean (tiny 1 10) (fun _ => 1) (fun _ => 0) 0 = Some r).
  { eexists. unfold SpikeMean, diag_inv. cbn.
    destruct (Req_EM_T 1 0); [lra|reflexivity]. }
  destruct E as [r E]. exists r. split; [exact E|].
  exact (proj1 (SpikeMean_probabilities _ _ _ _ r E) 0%nat ltac:(cbn; lia)).
Defined.






(** ** The sampling loops, for a mean read from anywhere *)

(** The loops of [SampleSpike] and [SampleSlab] with the mean read by [rd]
    from the buffer as it is at that iteration; [rd] may read the target slot
    of the iteration and nothing else of the target (out of place it reads
    another object, in place it reads the slot it then overwrites). *)
Section SpikeLoop.
Variable rd : buf -> nat -> R.
Variable toff : nat.
Hypothesis Hrd : forall b b' i, b (toff + i)%nat = b' (toff + i)%nat -> rd b i = rd b' i.

Lemma spike_loop_spec n b g b' g' :
  for_loop n (fun i '(b0, g0) =>
    let (u, g1) := next g0 in
    (upd b0 (toff + i)%nat (rand_bernoulli (rd b0 i) u), g1)) (b, g) = (b', g') ->
  pos g' = (pos g + n)%nat /\ draws g' = draws g /\
  (forall i, (i < n)%nat ->
     b' (toff + i)%nat = rand_bernoulli (rd b i) (draws g (pos g + i)%nat)) /\
  (forall x, (x < toff \/ toff + n <= x)%nat -> b' x = b x).
Proof.
  revert b' g'. induction n as [|n IH]; intros b' g' E; cbn [for_loop] in E.
  - injection E as <- <-. split; [lia|]. split; [reflexivity|].
    split; [intros; lia|intros; reflexivity].
  - destruct (for_loop n _ (b, g)) as [b1 g1] eqn:E1.
    unfold next in E. injection E as <- <-.
    destruct (IH b1 g1 eq_refl) as [Hp [Hd [Hv Hf]]]. cbn [pos draws].
    split; [lia|]. split; [exact Hd|]. split.
    + intros i Hi. destruct (Nat.eq_dec i n) as [->|Hne].
      * rewrite upd_same, (Hrd b1 b n) by (apply Hf; lia). rewrite Hd, Hp. reflexivity.
      * rewrite upd_other by lia. apply Hv. lia.
    + intros x Hx. rewrite upd_other by lia. apply Hf. lia.
Qed.
End SpikeLoop.

Section SlabLoop.
Variable st : policy.
Variable rd : buf -> nat -> nat -> R.
Variable toff : nat.
Hypothesis Hrd : forall b b' j i,
  b (toff + j + poolSize st * i)%nat = b' (toff + j + poolSize st * i)%nat ->
  rd b j i = rd b' j i.

Lemma slab_inner_spec i m b g :
  match for_loopM m (fun j '(b0, g0) =>
      if Rlt_dec 0 (alpha st j i) then
        let (z, g1) := next g0 in
        Some (upd b0 (toff + j + poolSize st * i)%nat
                (rand_normal (rd b0 j i) (1 / alpha st j i) z), g1)
      else None) (b, g) with
  | Some (b', g') =>
      (forall j, (j < m)%nat -> 0 < alpha st j i) /\
      pos g' = (pos g + m)%nat /\ draws g' = draws g /\
      (forall j, (j < m)%nat -> b' (toff + j + poolSize st * i)%nat =
         rand_normal (rd b j i) (1 / alpha st j i) (draws g (pos g + j)%nat)) /\
      (forall x, (x < toff + poolSize st * i \/ toff + poolSize st * i + m <= x)%nat ->
         b' x = b x)
  | None => exists j, (j < m)%nat /\ alpha st j i <= 0
  end.
Proof.
  induction m as [|m IH]; cbn [for_loopM].
  - split; [intros; lia|]. split; [lia|]. split; [reflexivity|].
    split; [intros; lia|intros; reflexivity].
  - destruct (for_loopM m _ (b, g)) as [[b1 g1]|] eqn:E.
    + destruct IH as [Ha [Hp [Hd [Hv Hf]]]].
      destruct (Rlt_dec 0 (alpha st m i)) as [Hpos|Hneg].
      * unfold next. cbn [pos draws].
        split; [intros j Hj; destruct (Nat.eq_dec j m) as [->|Hne]; [exact Hpos|apply Ha; lia]|].
        split; [lia|]. split; [exact Hd|]. split.
        -- intros j Hj. destruct (Nat.eq_dec j m) as [->|Hne].
           ++ rewrite upd_same, (Hrd b1 b m i) by (apply Hf; lia).
              rewrite Hd, Hp. reflexivity.
           ++ rewrite upd_other by lia. apply Hv. lia.
        -- intros x Hx. rewrite upd_other by lia. apply Hf. lia.
      * exists m. split; [lia|lra].
    + destruct IH as [j [Hj Ha]]. exists j. split; [lia|exact Ha].
Qed.

Lemma slab_outer_spec n b g :
  match for_loopM n (fun i s =>
    for_loopM (poolSize st) (fun j '(b0, g0) =>
      if Rlt_dec 0 (alpha st j i) then
        let (z, g1) := next g0 in
        Some (upd b0 (toff + j + poolSize st * i)%nat
                (rand_normal (rd b0 j i) (1 / alpha st j i) z), g1)
      else None) s) (b, g) with
  | Some (b', g') =>
      (forall i j, (i < n)%nat -> (j < poolSize st)%nat -> 0 < alpha st j i) /\
      pos g' = (pos g + poolSize st * n)%nat /\ draws g' = draws g /\
      (forall i j, (i < n)%nat -> (j < poolSize st)%nat ->
         b' (toff + j + poolSize st * i)%nat =
         rand_normal (rd b j i) (1 / alpha st j i)
           (draws g (pos g + poolSize st * i + j)%nat)) /\
      (forall x, (x < toff \/ toff + poolSize st * n <= x)%nat -> b' x = b x)
  | None => exists i j, (i < n)%nat /\ (j < poolSize st)%nat /\ alpha st j i <= 0
  end.
Proof.
  induction n as [|n IH]; cbn [for_loopM].
  - split; [intros; lia|]. split; [lia|]. split; [reflexivity|].
    split; [intros; lia|intros; reflexivity].
  - destruct (for_loopM n _ (b, g)) as [[b1 g1]|] eqn:E.
    + destruct IH as [Ha [Hp [Hd [Hv Hf]]]].
      pose proof (slab_inner_spec n (poolSize st) b1 g1) as Hin.
      destruct (for_loopM (poolSize st) _ (b1, g1)) as [[b2 g2]|] eqn:E2.
      * destruct Hin as [Ha2 [Hp2 [Hd2 [Hv2 Hf2]]]].
        split; [intros i j Hi Hj; destruct (Nat.eq_dec i n) as [->|Hne];
                [apply Ha2; lia|apply Ha; lia]|].
        split; [rewrite Hp2, Hp; lia|]. split; [rewrite Hd2; exact Hd|]. split.
        -- intros i j Hi Hj. destruct (Nat.eq_dec i n) as [->|Hne].
           ++ rewrite Hv2 by exact Hj. rewrite (Hrd b1 b j n) by (apply Hf; lia).
              rewrite Hd, Hp. reflexivity.
           ++ rewrite Hf2 by nia. apply Hv; lia.
        -- intros x Hx. rewrite Hf2 by lia. apply Hf. lia.
      * destruct Hin as [j [Hj Hle]]. exists n, j. split; [lia|]. split; assumption.
    + destruct IH as [i [j [Hi [Hj Hle]]]]. exists i, j.
      split; [lia|]. split; assumption.
Qed.
End SlabLoop.

Lemma rng_eq g1 g2 : draws g1 = draws g2 -> pos g1 = pos g2 -> g1 = g2.
Proof. destruct g1, g2. cbn. intros -> ->. reflexivity. Qed.

Lemma region_decomp P H off x :
  (off <= x < off + P * H)%nat ->
  exists i j, (i < H)%nat /\ (j < P)%nat /\ x = (off + j + P * i)%nat.
Proof.
  intros Hx. assert (HP : P <> 0%nat) by (intros ->; lia).
  exists ((x - off) / P)%nat, ((x - off) mod P)%nat. split; [|split].
  - apply Nat.Div0.div_lt_upper_bound. lia.
  - apply Nat.mod_upper_bound. exact HP.
  - pose proof (Nat.div_mod_eq (x - off) P). lia.
Qed.

Lemma SampleSpike_spec st mean moff tgt toff gen s g' :
  SampleSpike st mean moff tgt toff gen = (s, g') ->
  pos g' = (pos gen + hiddenSize st)%nat /\ draws g' = draws gen /\
  (forall i, (i < hiddenSize st)%nat ->
     s (toff + i)%nat = rand_bernoulli (mean (moff + i)%nat) (draws gen (pos gen + i)%nat)) /\
  (forall x, (x < toff \/ toff + hiddenSize st <= x)%nat -> s x = tgt x).
Proof.
  intros E. unfold SampleSpike in E.
  exact (spike_loop_spec (fun _ i => mean (moff + i)%nat) toff
           (fun _ _ _ _ => eq_refl) _ _ _ _ _ E).
Qed.

Lemma SampleSpike_inplace_spec st bf off gen s g' :
  SampleSpike_inplace st bf off gen = (s, g') ->
  pos g' = (pos gen + hiddenSize st)%nat /\ draws g' = draws gen /\
  (forall i, (i < hiddenSize st)%nat ->
     s (off + i)%nat = rand_bernoulli (bf (off + i)%nat) (draws gen (pos gen + i)%nat)) /\
  (forall x, (x < off \/ off + hiddenSize st <= x)%nat -> s x = bf x).
Proof.
  intros E. unfold SampleSpike_inplace in E.
  exact (spike_loop_spec (fun b0 i => b0 (off + i)%nat) off
           (fun _ _ _ E => E) _ _ _ _ _ E).
Qed.

Lemma SampleSlab_spec st mean moff tgt toff gen :
  match SampleSlab st mean moff tgt toff gen with
  | Some (s, g') =>
      (forall i j, (i < hiddenSize st)%nat -> (j < poolSize st)%nat -> 0 < alpha st j i) /\
      pos g' = (pos gen + poolSize st * hiddenSize st)%nat /\ draws g' = draws gen /\
      (forall i j, (i < hiddenSize st)%nat -> (j < poolSize st)%nat ->
         s (toff + j + poolSize st * i)%nat =
         rand_normal (mean (moff + j + poolSize st * i)%nat) (1 / alpha st j i)
           (draws gen (pos gen + poolSize st * i + j)%nat)) /\
      (forall x, (x < toff \/ toff + poolSize st * hiddenSize st <= x)%nat -> s x = tgt x)
  | None => exists i j, (i < hiddenSize st)%nat /\ (j < poolSize st)%nat /\ alpha st j i <= 0
  end.
Proof.
  exact (slab_outer_spec st (fun _ j i => mean (moff + j + poolSize st * i)%nat) toff
           (fun _ _ _ _ _ => eq_refl) (hiddenSize st) tgt gen).
Qed.

Lemma SampleSlab_inplace_spec st bf off gen :
  match SampleSlab_inplace st bf off gen with
  | Some (s, g') =>
      (forall i j, (i < hiddenSize st)%nat -> (j < poolSize st)%nat -> 0 < alpha st j i) /\
      pos g' = (pos gen + poolSize st * hiddenSize st)%nat /\ draws g' = draws gen /\
      (forall i j, (i < hiddenSize st)%nat -> (j < poolSize st)%nat ->
         s (off + j + poolSize st * i)%nat =
         rand_normal (bf (off + j + poolSize st * i)%nat) (1 / alpha st j i)
           (draws gen (pos gen + poolSize st * i + j)%nat)) /\
      (forall x, (x < off \/ off + poolSize st * hiddenSize st <= x)%nat -> s x = bf x)
  | None => exists i j, (i < hiddenSize st)%nat /\ (j < poolSize st)%nat /\ alpha st j i <= 0
  end.
Proof.
  exact (slab_outer_spec st (fun b0 j i => b0 (off + j + poolSize st * i)%nat) off
           (fun _ _ _ _ E => E) (hiddenSize st) bf gen).
Qed.

(** ** Sampling *)

(** [SampleSpike] takes one uniform draw per hidden unit, [H] in all, in
    order: spike [i] is 1 when draw [i] is below spike mean [i] and 0
    otherwise; nothing of the target outside its [H] slots changes. *)
Theorem SampleSpike_draws st mean moff tgt toff gen :
  let '(s, g') := SampleSpike st mean moff tgt toff gen in
  pos g' = (pos gen + hiddenSize st)%nat /\ draws g' = draws gen /\
  (forall i, (i < hiddenSize st)%nat ->
     (s (toff + i)%nat = 1 /\ draws gen (pos gen + i)%nat < mean (moff + i)%nat) \/
     (s (toff + i)%nat = 0 /\ mean (moff + i)%nat <= draws gen (pos gen + i)%nat)) /\
  (forall x, (x < toff \/ toff + hiddenSize st <= x)%nat -> s x = tgt x).
Proof.
  destruct (SampleSpike st mean moff tgt toff gen) as [s g'] eqn:E.
  destruct (SampleSpike_spec _ _ _ _ _ _ _ _ E) as [Hp [Hd [Hv Hf]]].
  split; [exact Hp|]. split; [exact Hd|]. split; [|exact Hf].
  intros i Hi. rewrite Hv by exact Hi. unfold rand_bernoulli.
  destruct (Rlt_dec _ _) as [Hlt|Hge]; [left|right]; split; lra.
Qed.

(** [SampleSpike(spike, spike)], as [SampleHidden] calls it with the means
    and the samples in one view, draws the same spikes and consumes the same
    draws as sampling from a separate copy of the means: each iteration reads
    its mean before overwriting that slot. *)
Theorem SampleSpike_inplace_agrees st bf off gen :
  let '(b1, g1) := SampleSpike_inplace st bf off gen in
  let '(b2, g2) := SampleSpike st bf off bf off gen in
  g1 = g2 /\ forall x, b1 x = b2 x.
Proof.
  destruct (SampleSpike_inplace st bf off gen) as [b1 g1] eqn:E1.
  destruct (SampleSpike st bf off bf off gen) as [b2 g2] eqn:E2.
  destruct (SampleSpike_inplace_spec _ _ _ _ _ _ E1) as [Hp1 [Hd1 [Hv1 Hf1]]].
  destruct (SampleSpike_spec _ _ _ _ _ _ _ _ E2) as [Hp2 [Hd2 [Hv2 Hf2]]].
  split; [apply rng_eq; congruence|].
  intros x. destruct (Nat.lt_ge_cases x off) as [Hx|Hx].
  - rewrite Hf1, Hf2 by lia. reflexivity.
  - destruct (Nat.lt_ge_cases x (off + hiddenSize st)) as [Hx'|Hx'].
    + replace x with (off + (x - off))%nat by lia.
      rewrite Hv1, Hv2 by lia. reflexivity.
    + rewrite Hf1, Hf2 by lia. reflexivity.
Qed.


(** [SampleSlab(slab, slab)], as [SampleHidden] calls it in place, fails
    exactly when sampling from a separate copy of the means fails, and
    otherwise gives the same samples and consumes the same draws. *)
Theorem SampleSlab_inplace_agrees st bf off gen :
  match SampleSlab_inplace st bf off gen, SampleSlab st bf off bf off gen with
  | Some (b1, g1), Some (b2, g2) => g1 = g2 /\ forall x, b1 x = b2 x
  | None, None => True
  | _, _ => False
  end.
Proof.
  pose proof (SampleSlab_inplace_spec st bf off gen) as S1.
  pose proof (SampleSlab_spec st bf off bf off gen) as S2.
  destruct (SampleSlab_inplace st bf off gen) as [[b1 g1]|];
    destruct (SampleSlab st bf off bf off gen) as [[b2 g2]|].
  - destruct S1 as [_ [Hp1 [Hd1 [Hv1 Hf1]]]]. destruct S2 as [_ [Hp2 [Hd2 [Hv2 Hf2]]]].
    split; [apply rng_eq; congruence|].
    intros x.
    destruct (Nat.lt_ge_cases x off) as [Hx|Hx];
      [rewrite Hf1, Hf2 by lia; reflexivity|].
    destruct (Nat.lt_ge_cases x (off + poolSize st * hiddenSize st)) as [Hx'|Hx'];
      [|rewrite Hf1, Hf2 by lia; reflexivity].
    destruct (region_decomp (poolSize st) (hiddenSize st) off x) as [i [j [Hi [Hj ->]]]];
      [lia|].
    rewrite Hv1, Hv2 by assumption. reflexivity.
  - destruct S1 as [Ha _]. destruct S2 as [i [j [Hi [Hj Hle]]]].
    specialize (Ha i j Hi Hj). lra.
  - destruct S2 as [Ha _]. destruct S1 as [i [j [Hi [Hj Hle]]]].
    specialize (Ha i j Hi Hj). lra.
  - exact I.
Qed.


(** ** Gradient layout *)

Lemma PositivePhase_layout st input grad gen st' g' gen' :
  PositivePhase st input grad gen = Some (st', g', gen') ->
  (forall i, (i < hiddenSize st)%nat ->
     g' (visibleSize st * poolSize st * hiddenSize st + i)%nat = spikeMean st' i /\
     0 < spikeMean st' i < 1) /\
  (forall r, (r < visibleSize st)%nat ->
     g' (visibleSize st * poolSize st * hiddenSize st + hiddenSize st + r)%nat
       = -0.5 * input r * input r) /\
  (forall j, (visibleSize st * poolSize st * hiddenSize st + hiddenSize st
              + visibleSize st <= j)%nat -> g' j = grad j) /\
  pos gen' = (pos gen + hiddenSize st)%nat /\ draws gen' = draws gen.
Proof.
  intros Hrun. unfold PositivePhase, positive_views in Hrun. cbv beta iota zeta in Hrun.
  destruct (SpikeMean st input (spikeMean st) 0) as [sm|] eqn:E1; [|discriminate].
  destruct (SampleSpike st sm 0 (spikeSamples st) 0 gen) as [ss gen1] eqn:E2.
  destruct (SlabMean st input ss 0 (slabMean st) 0) as [slm|] eqn:E3; [|discriminate].
  injection Hrun as <- <- <-. cbn [spikeMean set_scratch].
  unfold n_elem; cbn [v_rows v_cols v_slices v_off].
  destruct (SampleSpike_spec _ _ _ _ _ _ _ _ E2) as [Hp [Hd _]].
  destruct (SpikeMean_values _ _ _ _ _ E1) as [Hsm _].
  set (VPH := (visibleSize st * poolSize st * hiddenSize st)%nat).
  split; [|split; [|split; [|split; [exact Hp|exact Hd]]]].
  - intros i Hi. split; [|exact (Hsm i Hi)].
    rewrite for_loop_frame by (intros; apply upd_other; lia).
    apply (for_loop_last _ _ _ i); [exact Hi|intros; apply upd_same|].
    intros; apply upd_other; lia.
  - intros r Hr.
    replace (VPH + hiddenSize st + r)%nat
      with (0 + visibleSize st * poolSize st * hiddenSize st + hiddenSize st * 1 * 1 + r)%nat
      by (unfold VPH; lia).
    apply (for_loop_last _ _ _ r); [exact Hr|intros; apply upd_same|].
    intros; apply upd_other; lia.
  - intros j Hj.
    rewrite for_loop_frame by (intros; apply upd_other; lia).
    rewrite for_loop_frame by (intros; apply upd_other; lia).
    apply for_loop_frame. intros i x Hi. apply write_block_out.
    unfold VPH in Hj. nia.
Qed.

(** Both gradient phases write the spike-bias part of the gradient with the
    spike means, each strictly between 0 and 1, and the visible-precision
    part [r] with [-0.5 * input(r)^2]; they leave every gradient entry past
    the [V*P*H + H + V] parameters alone, and consume exactly [H] draws. *)
Theorem Phase_bias_precision_grads st input grad gen :
  match PositivePhase st input grad gen with
  | Some (st', g', gen') =>
      (forall i, (i < hiddenSize st)%nat ->
         g' (visibleSize st * poolSize st * hiddenSize st + i)%nat = spikeMean st' i /\
         0 < spikeMean st' i < 1) /\
      (forall r, (r < visibleSize st)%nat ->
         g' (visibleSize st * poolSize st * hiddenSize st + hiddenSize st + r)%nat
           = -0.5 * input r * input r) /\
      (forall j, (visibleSize st * poolSize st * hiddenSize st + hiddenSize st
                  + visibleSize st <= j)%nat -> g' j = grad j) /\
      pos gen' = (pos gen + hiddenSize st)%nat /\ draws gen' = draws gen
  | None => True
  end /\
  match NegativePhase st input grad gen with
  | Some (st', g', gen') =>
      (forall i, (i < hiddenSize st)%nat ->
         g' (visibleSize st * poolSize st * hiddenSize st + i)%nat = spikeMean st' i /\
         0 < spikeMean st' i < 1) /\
      (forall r, (r < visibleSize st)%nat ->
         g' (visibleSize st * poolSize st * hiddenSize st + hiddenSize st + r)%nat
           = -0.5 * input r * input r) /\
      (forall j, (visibleSize st * poolSize st * hiddenSize st + hiddenSize st
                  + visibleSize st <= j)%nat -> g' j = grad j) /\
      pos gen' = (pos gen + hiddenSize st)%nat /\ draws gen' = draws gen
  | None => True
  end.
Proof.
  split.
  - destruct (PositivePhase st input grad gen) as [[[st' g'] gen']|] eqn:E; [|exact I].
    exact (PositivePhase_layout _ _ _ _ _ _ _ E).
  - destruct (NegativePhase st input grad gen) as [[[st' g'] gen']|] eqn:E; [|exact I].
    exact (PositivePhase_layout _ _ _ _ _ _ _ E).
Qed.

(** ** Free energy in closed form *)

Lemma for_loop_sub n (f : nat -> R) a :
  for_loop n (fun i x => x - f i) a = a - sum_upto n f.
Proof. induction n as [|n IH]; cbn [for_loop sum_upto]; [lra|rewrite IH; lra]. Qed.

Lemma for_loop_add n (f : nat -> R) a :
  for_loop n (fun i x => x + f i) a = a + sum_upto n f.
Proof. induction n as [|n IH]; cbn [for_loop sum_upto]; [lra|rewrite IH; lra]. Qed.

Lemma for_loop_nested_sub n m (g : nat -> nat -> R) a :
  for_loop n (fun i x => for_loop m (fun k y => y - g k i) x) a
  = a - sum_upto n (fun i => sum_upto m (fun k => g k i)).
Proof.
  induction n as [|n IH]; cbn [for_loop sum_upto]; [lra|].
  rewrite for_loop_sub, IH. lra.
Qed.

Lemma sum_upto_ext n (f g : nat -> R) :
  (forall i, (i < n)%nat -> f i = g i) -> sum_upto n f = sum_upto n g.
Proof.
  induction n as [|n IH]; intros Hfg; cbn [sum_upto]; [reflexivity|].
  rewrite IH by (intros; apply Hfg; lia). rewrite Hfg by lia. reflexivity.
Qed.

Lemma sum_upto_opp n (f : nat -> R) :
  sum_upto n (fun i => - f i) = - sum_upto n f.
Proof. induction n as [|n IH]; cbn [sum_upto]; [lra|rewrite IH; lra]. Qed.

Lemma sum_upto_lt_at n (f g : nat -> R) i0 :
  (i0 < n)%nat ->
  (forall i, (i < n)%nat -> i <> i0 -> f i = g i) -> f i0 < g i0 ->
  sum_upto n f < sum_upto n g.
Proof.
  induction n as [|n IH]; intros Hi Hfg Hlt; [lia|]. cbn [sum_upto].
  destruct (Nat.eq_dec i0 n) as [->|Hne].
  - rewrite (sum_upto_ext n f g) by (intros; apply Hfg; lia). lra.
  - rewrite (Hfg n) by lia. apply Rplus_lt_compat_r. apply IH; [lia| |exact Hlt].
    intros; apply Hfg; lia.
Qed.

Lemma softplus_increasing x y : x < y -> softplus x < softplus y.
Proof.
  intros Hxy. unfold softplus. pose proof (exp_pos x). pose proof (exp_increasing x y Hxy).
  apply ln_increasing; lra.
Qed.

Lemma FreeEnergy_closed st input :
  FreeEnergy st input =
  0.5 * sum_upto (visibleSize st) (fun r => input r * vp st r * input r)
  - sum_upto (hiddenSize st) (fun i =>
      sum_upto (poolSize st) (fun k => 0.5 * ln (2 * PI / alpha st k i)))
  - sum_upto (hiddenSize st) (fun i =>
      softplus (b st i + sum_upto (poolSize st) (fun k =>
        sum_upto (visibleSize st) (fun r => input r * W st r k i)
        * sum_upto (visibleSize st) (fun r => input r * W st r k i)
        / (2 * alpha st k i)))).
Proof.
  unfold FreeEnergy. cbv zeta.
  rewrite for_loop_nested_sub, for_loop_sub.
  f_equal. apply sum_upto_ext. intros i _. rewrite for_loop_add, Rplus_0_l. reflexivity.
Qed.

(** Two models of the same shape that agree on the weights, the visible and
    the slab precisions, and on every spike bias but the [i0]-th: the one
    with the larger [i0]-th spike bias has the smaller free energy. *)
Lemma FreeEnergy_bias_mono st1 st2 input i0 :
  visibleSize st2 = visibleSize st1 -> hiddenSize st2 = hiddenSize st1 ->
  poolSize st2 = poolSize st1 ->
  (forall r k i, (r < visibleSize st1)%nat -> (k < poolSize st1)%nat ->
     (i < hiddenSize st1)%nat -> W st2 r k i = W st1 r k i) ->
  (forall r, (r < visibleSize st1)%nat -> vp st2 r = vp st1 r) ->
  (forall k i, (k < poolSize st1)%nat -> (i < hiddenSize st1)%nat ->
     alpha st2 k i = alpha st1 k i) ->
  (forall i, (i < hiddenSize st1)%nat -> i <> i0 -> b st2 i = b st1 i) ->
  (i0 < hiddenSize st1)%nat -> b st1 i0 < b st2 i0 ->
  FreeEnergy st2 input < FreeEnergy st1 input.
Proof.
  intros HV HH HP HW Hvp Ha Hb Hi0 Hlt. rewrite !FreeEnergy_closed. rewrite HV, HH, HP.
  assert (E1 : sum_upto (visibleSize st1) (fun r => input r * vp st2 r * input r)
             = sum_upto (visibleSize st1) (fun r => input r * vp st1 r * input r)).
  { apply sum_upto_ext. intros r Hr. rewrite Hvp by exact Hr. reflexivity. }
  assert (E2 : sum_upto (hiddenSize st1) (fun i =>
                 sum_upto (poolSize st1) (fun k => 0.5 * ln (2 * PI / alpha st2 k i)))
             = sum_upto (hiddenSize st1) (fun i =>
                 sum_upto (poolSize st1) (fun k => 0.5 * ln (2 * PI / alpha st1 k i)))).
  { apply sum_upto_ext. intros i Hi. apply sum_upto_ext. intros k Hk.
    rewrite Ha by assumption. reflexivity. }
  assert (E3 : forall i, (i < hiddenSize st1)%nat ->
    sum_upto (poolSize st1) (fun k =>
      sum_upto (visibleSize st1) (fun r => input r * W st2 r k i)
      * sum_upto (visibleSize st1) (fun r => input r * W st2 r k i) / (2 * alpha st2 k i))
    = sum_upto (poolSize st1) (fun k =>
      sum_upto (visibleSize st1) (fun r => input r * W st1 r k i)
      * sum_upto (visibleSize st1) (fun r => input r * W st1 r k i) / (2 * alpha st1 k i))).
  { intros i Hi. apply sum_upto_ext. intros k Hk. rewrite Ha by assumption.
    rewrite (sum_upto_ext _ (fun r => input r * W st2 r k i) (fun r => input r * W st1 r k i))
      by (intros r Hr; rewrite HW by assumption; reflexivity).
    reflexivity. }
  assert (E4 : sum_upto (hiddenSize st1) (fun i =>
      softplus (b st1 i + sum_upto (poolSize st1) (fun k =>
        sum_upto (visibleSize st1) (fun r => input r * W st1 r k i)
        * sum_upto (visibleSize st1) (fun r => input r * W st1 r k i) / (2 * alpha st1 k i))))
    < sum_upto (hiddenSize st1) (fun i =>
      softplus (b st2 i + sum_upto (poolSize st1) (fun k =>
        sum_upto (visibleSize st1) (fun r => input r * W st2 r k i)
        * sum_upto (visibleSize st1) (fun r => input r * W st2 r k i) / (2 * alpha st2 k i))))).
  { apply (sum_upto_lt_at _ _ _ i0 Hi0).
    - intros i Hi Hne. rewrite E3, Hb by assumption. reflexivity.
    - rewrite E3 by exact Hi0. apply softplus_increasing. lra. }
  rewrite E1, E2. lra.
Qed.

(** The parameter view of a model after [Reset], whatever buffer it is
    pointed at. *)
Lemma Reset_accessors st p :
  (forall r k i, W (set_parameter (Reset st) p) r k i
     = p (r + visibleSize st * k + visibleSize st * poolSize st * i)%nat) /\
  (forall i, b (set_parameter (Reset st) p) i
     = p (visibleSize st * poolSize st * hiddenSize st + i)%nat) /\
  (forall r, vp (set_parameter (Reset st) p) r
     = p (visibleSize st * poolSize st * hiddenSize st + hiddenSize st + r)%nat) /\
  (forall k i, alpha (set_parameter (Reset st) p) k i = alpha st k i).
Proof.
  unfold W, b, vp, alpha, set_parameter, Reset, reset_views, n_elem.
  cbn [weight spikeBias visiblePenalty slabPenalty parameter v_off v_rows v_cols v_slices].
  split; [|split; [|split]]; intros; f_equal; lia.
Qed.

(** ** Free energy *)

(** The free energy is even in the visible vector: [FreeEnergy(-v) =
    FreeEnergy(v)]; the visible term is quadratic and each hidden term
    depends on the projections [weight.slice(i).col(k).t() * v] only through
    their squares. *)
Theorem FreeEnergy_even st input :
  FreeEnergy st (fun r => - input r) = FreeEnergy st input.
Proof.
  rewrite !FreeEnergy_closed. cbv beta.
  assert (Hproj : forall k i,
    sum_upto (visibleSize st) (fun r => - input r * W st r k i)
    = - sum_upto (visibleSize st) (fun r => input r * W st r k i)).
  { intros k i. rewrite <- sum_upto_opp. apply sum_upto_ext. intros; ring. }
  rewrite (sum_upto_ext _ (fun r => - input r * vp st r * - input r)
                          (fun r => input r * vp st r * input r))
    by (intros; ring).
  rewrite (sum_upto_ext (hiddenSize st) (fun i => softplus (b st i + sum_upto (poolSize st)
      (fun k => sum_upto (visibleSize st) (fun r => - input r * W st r k i)
        * sum_upto (visibleSize st) (fun r => - input r * W st r k i) / (2 * alpha st k i))))
    (fun i => softplus (b st i + sum_upto (poolSize st)
      (fun k => sum_upto (visibleSize st) (fun r => input r * W st r k i)
        * sum_upto (visibleSize st) (fun r => input r * W st r k i) / (2 * alpha st k i))))).
  - reflexivity.
  - intros i _. f_equal. f_equal. apply sum_upto_ext. intros k _.
    rewrite Hproj. unfold Rdiv. ring.
Qed.

(** At the origin of the visible space the free energy is
    [-sum_{i,k} 0.5 * log(2 pi / slabPenalty(k, i)) - sum_i softplus(spikeBias(i))],
    whatever the weights and the visible precisions. *)
Theorem FreeEnergy_at_origin st :
  FreeEnergy st (fun _ => 0) =
  - sum_upto (hiddenSize st) (fun i =>
      sum_upto (poolSize st) (fun k => 0.5 * ln (2 * PI / alpha st k i)))
  - sum_upto (hiddenSize st) (fun i => softplus (b st i)).
Proof.
  rewrite FreeEnergy_closed.
  rewrite (sum_upto_zero (visibleSize st)) by (intros; ring).
  match goal with
  | |- _ - _ - ?s = _ => replace s with (sum_upto (hiddenSize st) (fun i => softplus (b st i)))
  end; [lra|].
  apply sum_upto_ext. intros i _.
  rewrite (sum_upto_zero (poolSize st)), Rplus_0_r; [reflexivity|].
  intros k _. rewrite (sum_upto_zero (visibleSize st)) by (intros; ring).
  unfold Rdiv. ring.
Qed.

(** After [Reset], raising one spike bias [spikeBias(i0)] (the parameter
    entry [V*P*H + i0]) strictly lowers the free energy of every visible
    vector. *)
Theorem FreeEnergy_spikeBias_decreasing st input i0 x :
  (i0 < hiddenSize st)%nat -> b (Reset st) i0 < x ->
  FreeEnergy (set_parameter (Reset st)
                (upd (parameter st) (visibleSize st * poolSize st * hiddenSize st + i0)%nat x))
             input
  < FreeEnergy (Reset st) input.
Proof.
  intros Hi Hx.
  set (p1 := upd (parameter st) (visibleSize st * poolSize st * hiddenSize st + i0)%nat x).
  change (Reset st) with (set_parameter (Reset st) (parameter st)) at 2.
  destruct (Reset_accessors st p1) as [W1 [b1 [vp1 a1]]].
  destruct (Reset_accessors st (parameter st)) as [W0 [b0 [vp0 a0]]].
  change (b (Reset st) i0) with (b (set_parameter (Reset st) (parameter st)) i0) in Hx.
  refine (FreeEnergy_bias_mono (set_parameter (Reset st) (parameter st))
            (set_parameter (Reset st) p1) input i0 eq_refl eq_refl eq_refl _ _ _ _ Hi _).
  - intros r k i Hr Hk Hi'. cbn [visibleSize poolSize hiddenSize set_parameter Reset reset_views] in *.
    rewrite W1, W0. unfold p1. apply upd_other.
    pose proof (slice_bound _ _ _ _ _ _ Hr Hk Hi'). lia.
  - intros r Hr. cbn [visibleSize set_parameter Reset reset_views] in Hr.
    rewrite vp1, vp0. unfold p1. apply upd_other. lia.
  - intros k i _ _. rewrite a1, a0. reflexivity.
  - intros i Hi' Hne. rewrite b1, b0. unfold p1. apply upd_other. lia.
  - rewrite b1. unfold p1. rewrite upd_same. exact Hx.
Qed.

Lemma FreeEnergy_spikeBias_decreasing_witness :
  b (tiny 1 10) 0 < 2 /\
  FreeEnergy (set_parameter (tiny 1 10) (upd (fun _ => 1) 1%nat 2)) (fun _ => 1)
  < FreeEnergy (tiny 1 10) (fun _ => 1).
Proof.
  assert (Hb : b (tiny 1 10) 0 < 2) by (unfold b; cbn; lra).
  split; [exact Hb|].
  exact (FreeEnergy_spikeBias_decreasing
           (mkPolicy 1 1 1 (mkMat 1 1 (fun _ => 1)) 10 (fun _ => 1)
              (mkView 0 0 0 0) (mkView 0 0 0 0) (mkView 0 0 0 0)
              (fun _ => 0) (fun _ => 0) (fun _ => 0))
           (fun _ => 1) 0 2 ltac:(cbn; lia) Hb).
Defined.

(** ** Hidden and visible sampling: edge behaviour *)

(** [HiddenMean] returns a [(H + P*H) x 1] column and consumes exactly [H]
    draws; it leaves a 0/1 spike sample for each hidden unit in the scratch
    buffer [spikeSamples] (the rest of that buffer unchanged), and the slab
    entries [H + k + P*i] of a unit whose sampled spike is 0 are exactly 0
    (unlike [SampleHidden], which adds noise to them). *)
Theorem HiddenMean_slab_gated st input out fresh gen :
  match HiddenMean st input out fresh gen with
  | Some (st', out', gen') =>
      n_rows out' = (hiddenSize st + poolSize st * hiddenSize st)%nat /\
      n_cols out' = 1%nat /\
      pos gen' = (pos gen + hiddenSize st)%nat /\ draws gen' = draws gen /\
      (forall i, (i < hiddenSize st)%nat ->
         spikeSamples st' i = 0 \/ spikeSamples st' i = 1) /\
      (forall j, (hiddenSize st <= j)%nat -> spikeSamples st' j = spikeSamples st j) /\
      (forall i k, (i < hiddenSize st)%nat -> (k < poolSize st)%nat ->
         spikeSamples st' i = 0 ->
         mem out' (hiddenSize st + k + poolSize st * i)%nat = 0)
  | None => True
  end.
Proof.
  unfold HiddenMean. cbv zeta.
  destruct (SpikeMean st input _ 0) as [b1|] eqn:E1; [|exact I].
  destruct (SampleSpike st b1 0 (spikeSamples st) 0 gen) as [ss gen1] eqn:E2.
  destruct (SampleSpike_spec _ _ _ _ _ _ _ _ E2) as [Hp [Hd [Hv Hf]]].
  destruct (SlabMean st input ss 0 b1 (hiddenSize st)) as [b2|] eqn:E3; [|exact I].
  cbn [n_rows n_cols mem spikeSamples set_scratch].
  split; [reflexivity|]. split; [reflexivity|]. split; [exact Hp|]. split; [exact Hd|].
  split; [|split].
  - intros i Hi. replace i with (0 + i)%nat by lia. rewrite Hv by exact Hi.
    unfold rand_bernoulli. destruct (Rlt_dec _ _); [right|left]; reflexivity.
  - intros j Hj. apply Hf. lia.
  - intros i k Hi Hk Hz. exact (SlabMean_col_zero _ _ _ _ _ _ _ i k E3 Hi Hk Hz).
Qed.

(** With a radius that no norm can be below ([radius <= 0]) and positive
    visible precisions, [SampleVisible] never accepts early: it always runs
    all [numMaxTrials = 10] trials, returns the tenth, and consumes [10 * V]
    draws. *)
Theorem SampleVisible_nonpositive_radius st hidden out fresh gen m :
  radius st <= 0 ->
  (forall i, (i < visibleSize st)%nat -> 0 < vp st i) ->
  VisibleMean st hidden out fresh = Some m ->
  exists bf gen',
    SampleVisible st hidden out fresh gen = Some (mkMat (n_rows m) (n_cols m) bf, gen') /\
    iter_draws st 10 (mem m) gen = Some (bf, gen') /\
    pos gen' = (pos gen + 10 * visibleSize st)%nat.
Proof.
  intros Hrad Hvp Hm.
  destruct (visible_trials_char st 9 (mem m) gen Hvp)
    as [n [bf [gen' [Hn [Ht [Hi [_ Hend]]]]]]].
  assert (Hn10 : n = 10%nat).
  { destruct Hend as [Hlt|Hn10]; [|exact Hn10].
    exfalso. unfold norm2 in Hlt. pose proof (sqrt_pos (sum_upto (visibleSize st)
      (fun r => bf r * bf r))). lra. }
  subst n. exists bf, gen'. split; [|split; [exact Hi|]].
  - unfold SampleVisible. rewrite Hm. unfold numMaxTrials.
    rewrite Ht. reflexivity.
  - exact (iter_draws_pos _ _ _ _ _ _ Hi).
Qed.

Lemma SampleVisible_nonpositive_radius_witness :
  exists m bf gen',
    VisibleMean (tiny 1 0) (fun _ => 0) (mkMat 1 1 (fun _ => 5)) (fun _ => 0) = Some m /\
    SampleVisible (tiny 1 0) (fun _ => 0) (mkMat 1 1 (fun _ => 5)) (fun _ => 0)
      (stream2 0 0) = Some (mkMat (n_rows m) (n_cols m) bf, gen').
Proof.
  assert (E : exists m, VisibleMean (tiny 1 0) (fun _ => 0) (mkMat 1 1 (fun _ => 5))
                          (fun _ => 0) = Some m).
  { eexists. unfold VisibleMean, diag_inv. cbn.
    destruct (Req_EM_T 1 0); [lra|reflexivity]. }
  destruct E as [m E].
  assert (Hvp : forall i, (i < visibleSize (tiny 1 0))%nat -> 0 < vp (tiny 1 0) i)
    by (intros i _; cbn; lra).
  assert (Hrad : radius (tiny 1 0) <= 0) by (cbn; lra).
  destruct (SampleVisible_nonpositive_radius _ _ _ _ (stream2 0 0) m Hrad Hvp E)
    as [bf [gen' [Hs _]]].
  exists m, bf, gen'. split; [exact E|exact Hs].
Defined.

(** ** The conditional means overwrite their target *)

Lemma SlabMean_value st visible spike soff tgt toff out i k :
  SlabMean st visible spike soff tgt toff = Some out ->
  (i < hiddenSize st)%nat -> (k < poolSize st)%nat ->
  exists d, diag_inv (poolSize st) (fun k => alpha st k i) = Some d /\
    out (toff + k + poolSize st * i)%nat
    = sum_upto (visibleSize st) (fun r => spike (soff + i)%nat * d k * W st r k i * visible r).
Proof.
  intros Hrun Hi Hk. unfold SlabMean in Hrun.
  refine (for_loopM_last _ (fun y => exists d,
            diag_inv (poolSize st) (fun k => alpha st k i) = Some d /\
            y = sum_upto (visibleSize st)
                  (fun r => spike (soff + i)%nat * d k * W st r k i * visible r))
            _ tgt out i _ Hi _ _ Hrun).
  - intros x y E. cbv beta in E. destruct (diag_inv _ _) as [d|]; [|discriminate].
    injection E as <-. exists d. split; [reflexivity|].
    rewrite write_block_in by lia.
    replace (toff + k + poolSize st * i - (toff + poolSize st * i))%nat with k by lia.
    reflexivity.
  - intros i' x y Hi' E. cbv beta in E. destruct (diag_inv _ _); [|discriminate].
    injection E as <-. apply write_block_out. nia.
Qed.

Lemma SlabMean_frame st visible spike soff tgt toff out x :
  SlabMean st visible spike soff tgt toff = Some out ->
  (x < toff \/ toff + poolSize st * hiddenSize st <= x)%nat -> out x = tgt x.
Proof.
  intros Hrun Hx. unfold SlabMean in Hrun.
  refine (for_loopM_frame _ _ tgt out x _ Hrun).
  intros i y z Hi E. cbv beta in E. destruct (diag_inv _ _); [|discriminate].
  injection E as <-. apply write_block_out. nia.
Qed.

(** [SpikeMean] overwrites its target: the spike means it stores do not
    depend on what the target buffer held before, nor on where they go. *)
Theorem SpikeMean_overwrites st visible t1 toff1 r1 t2 toff2 :
  SpikeMean st visible t1 toff1 = Some r1 ->
  exists r2, SpikeMean st visible t2 toff2 = Some r2 /\
    forall i, (i < hiddenSize st)%nat -> r1 (toff1 + i)%nat = r2 (toff2 + i)%nat.
Proof. exact (SpikeMean_target st visible t1 toff1 r1 t2 toff2). Qed.

Lemma SpikeMean_overwrites_witness :
  exists r1 r2,
    SpikeMean (tiny 1 10) (fun _ => 1) (fun _ => 0) 0 = Some r1 /\
    SpikeMean (tiny 1 10) (fun _ => 1) (fun _ => 7) 3 = Some r2 /\
    r1 0%nat = r2 3%nat.
Proof.
  assert (E : exists r, SpikeMean (tiny 1 10) (fun _ => 1) (fun _ => 0) 0 = Some r).
  { eexists. unfold SpikeMean, diag_inv. cbn.
    destruct (Req_EM_T 1 0); [lra|reflexivity]. }
  destruct E as [r1 E].
  destruct (SpikeMean_overwrites _ _ _ _ _ (fun _ => 7) 3 E) as [r2 [E2 Heq]].
  exists r1, r2. split; [exact E|]. split; [exact E2|].
  exact (Heq 0%nat ltac:(cbn; lia)).
Defined.

(** [SlabMean] overwrites its [P x H] block of the target and nothing else:
    entries outside [[toff, toff + P*H)] keep their value, and the block it
    stores does not depend on what the target held before. *)
Theorem SlabMean_overwrites st visible spike soff t1 toff r1 t2 :
  SlabMean st visible spike soff t1 toff = Some r1 ->
  (forall x, (x < toff \/ toff + poolSize st * hiddenSize st <= x)%nat -> r1 x = t1 x) /\
  exists r2, SlabMean st visible spike soff t2 toff = Some r2 /\
    forall i k, (i < hiddenSize st)%nat -> (k < poolSize st)%nat ->
      r1 (toff + k + poolSize st * i)%nat = r2 (toff + k + poolSize st * i)%nat.
Proof.
  intros E1. split; [intros x Hx; exact (SlabMean_frame _ _ _ _ _ _ _ x E1 Hx)|].
  destruct (SlabMean st visible spike soff t2 toff) as [r2|] eqn:E2.
  - exists r2. split; [reflexivity|]. intros i k Hi Hk.
    destruct (SlabMean_value _ _ _ _ _ _ _ i k E1 Hi Hk) as [d1 [Hd1 ->]].
    destruct (SlabMean_value _ _ _ _ _ _ _ i k E2 Hi Hk) as [d2 [Hd2 ->]].
    rewrite Hd1 in Hd2. injection Hd2 as ->. reflexivity.
  - exfalso. apply (proj1 (SlabMean_None _ _ _ _ _ _)) in E2.
    apply (proj2 (SlabMean_None st visible spike soff t1 toff)) in E2. congruence.
Qed.

Lemma SlabMean_overwrites_witness :
  exists r1, SlabMean (tiny 1 10) (fun _ => 1) (fun _ => 1) 0 (fun _ => 0) 0 = Some r1 /\
    r1 1%nat = 0.
Proof.
  assert (E : exists r, SlabMean (tiny 1 10) (fun _ => 1) (fun _ => 1) 0 (fun _ => 0) 0
                        = Some r).
  { eexists. unfold SlabMean, diag_inv. cbn.
    destruct (Req_EM_T 1 0); [lra|reflexivity]. }
  destruct E as [r1 E]. exists r1. split; [exact E|].
  exact (proj1 (SlabMean_overwrites _ _ _ _ _ _ _ (fun _ => 5) E) 1%nat
           ltac:(right; cbn; lia)).
Defined.
